(** * A record store over two binary-search-tree indexes

    Shallow embedding of [Engine.h]: the heap of records, the primary index
    [idIndex] (student id to heap position) and the secondary index
    [lastIndex] (lower-cased last name to the positions of the records that
    carry it), with the five operations [insertRecord], [deleteById],
    [findById], [rangeById] and [prefixByLast].

    [BST.h] and [Record.h] are included by [Engine.h] but are not part of the
    sources at hand; the tree and the record type are modelled from the
    specification and every such definition says so. *)

From Stdlib Require Import ZArith Ascii String.
From stdpp Require Import base tactics option list sorting numbers strings relations.

Local Open Scope Z_scope.
Set Warnings "-clear-no-such-hyp".

(** ** Ordered keys

    [BST<K, V>] is a template over a key type compared with [operator<].
    The two instantiations of [Engine.h] are [int] and [std::string]. *)

Class KeyOrder (K : Type) := {
  key_lt : K → K → bool;
  key_lt_irrefl : ∀ a, key_lt a a = false;
  key_lt_trans : ∀ a b c, key_lt a b = true → key_lt b c = true → key_lt a c = true;
  key_lt_total : ∀ a b, key_lt a b = false → key_lt b a = false → a = b
}.

(** [a <= b] as code that only has [operator<] tests it: [!(b < a)]. *)
Definition key_le `{KeyOrder K} (a b : K) : bool := negb (key_lt b a).

(** [int] keys: the ids and nothing else. No arithmetic is done on ids, so an
    id is the mathematical integer it denotes. *)
#[global, refine]
Instance Z_KeyOrder : KeyOrder Z := {| key_lt := Z.ltb |}.
Proof.
  - intros a. apply Z.ltb_irrefl.
  - intros a b c ?%Z.ltb_lt ?%Z.ltb_lt. apply Z.ltb_lt. lia.
  - intros a b ?%Z.ltb_ge ?%Z.ltb_ge. lia.
Defined.

(** [std::string] keys: [operator<] is the lexicographic order on the bytes
    read as unsigned values, a proper prefix being smaller. This is
    [String.ltb], which compares characters by their codes. *)
#[global, refine]
Instance string_KeyOrder : KeyOrder string := {| key_lt := String.ltb |}.
Proof.
  - intros s. unfold String.ltb.
    assert (String.compare s s = Eq) as ->; [|done].
    induction s as [|a s IH]; simpl; [done|].
    unfold Ascii.compare. by rewrite N.compare_refl.
  - assert (∀ s, String.compare s s = Eq) as Hrefl.
    { induction s as [|a s IH]; simpl; [done|].
      unfold Ascii.compare. by rewrite N.compare_refl. }
    assert (∀ s1 s2, String.ltb s1 s2 = true ↔ String.compare s1 s2 = Lt) as Hlt.
    { intros s1 s2. unfold String.ltb. by destruct (String.compare s1 s2). }
    intros s1 s2 s3. rewrite !Hlt. revert s2 s3.
    induction s1 as [|a s1 IH]; intros [|b s2] [|c s3]; simpl; try done.
    destruct (Ascii.compare a b) eqn:Hab, (Ascii.compare b c) eqn:Hbc; try done.
    + apply Ascii.compare_eq_iff in Hab as ->. rewrite Hbc. apply IH.
    + apply Ascii.compare_eq_iff in Hab as ->. by rewrite Hbc.
    + apply Ascii.compare_eq_iff in Hbc as <-. by rewrite Hab.
    + assert (Ascii.compare a c = Lt) as ->; [|done].
      revert Hab Hbc. unfold Ascii.compare. rewrite !N.compare_lt_iff. lia.
  - intros a b. unfold String.ltb. rewrite (String.compare_antisym b a).
    destruct (String.compare a b) eqn:Hab; simpl; try done.
    intros _ _. by apply String.compare_eq_iff.
Defined.

(** ** Case normalisation ([toLower], Engine.h lines 15-20)

    [tolower] in the default "C" locale: the 26 upper-case ASCII letters
    move to lower case, every other byte is left as it is. *)
Definition tolower (c : ascii) : ascii :=
  let n := N_of_ascii c in
  if ((65 <=? n) && (n <=? 90))%N then ascii_of_N (n + 32) else c.

Fixpoint toLower (s : string) : string :=
  match s with
  | EmptyString => EmptyString
  | String c s' => String (tolower c) (toLower s')
  end.

(** ** The ordered index *)

Module BST.

(** Modelled from the spec: [BST.h] is not among the sources. The index is
    an unbalanced binary search tree with one (key, value) pair per node. *)
Inductive tree (K V : Type) : Type :=
| Leaf
| Node (l : tree K V) (k : K) (v : V) (r : tree K V).
Global Arguments Leaf {K V}.
Global Arguments Node {K V} l k v r.

(** Modelled from the spec: the index object, the tree together with the
    count of key comparisons made since the last [resetMetrics]. *)
Record t (K V : Type) : Type := mk { root : tree K V; comparisons : nat }.
Global Arguments mk {K V} root comparisons.
Global Arguments root {K V} _.
Global Arguments comparisons {K V} _.

(** Modelled from the spec: [find] hands out a pointer to the value stored
    in the node that carries the key. The model names that node by its
    key. The pointer can be read and written through as long as the node is
    in the tree; once [erase] has removed the node nothing is known about
    what it points to, and a use of it has no defined outcome. *)
Definition ptr (K : Type) : Type := K.

Section ops.
Context `{KeyOrder K} {V : Type}.

(** Modelled from the spec: the search of [find], one comparison counted for
    each node whose key is looked at. The result is a null pointer ([None])
    or the pointer into the node found. *)
Fixpoint find_node (k : K) (t : tree K V) (c : nat) : option (ptr K) * nat :=
  match t with
  | Leaf => (None, c)
  | Node l k' _ r =>
      if key_lt k k' then find_node k l (S c)
      else if key_lt k' k then find_node k r (S c)
      else (Some k', S c)
  end.

Definition find (k : K) (b : t K V) : option (ptr K) * t K V :=
  let '(p, c) := find_node k (root b) (comparisons b) in
  (p, mk (root b) c).

(** The value held by the node of key [k], if that node is in the tree. *)
Fixpoint lookup (k : K) (t : tree K V) : option V :=
  match t with
  | Leaf => None
  | Node l k' v r =>
      if key_lt k k' then lookup k l
      else if key_lt k' k then lookup k r
      else Some v
  end.

(** Reading through a pointer, [*p]: defined while its node is in the tree. *)
Definition deref (p : ptr K) (b : t K V) : option V := lookup p (root b).

(** Writing through a pointer, [p->push_back(..)] and the like: the value in
    the node is replaced by [f] of it, the shape of the tree is untouched. *)
Fixpoint update (f : V → V) (k : K) (t : tree K V) : tree K V :=
  match t with
  | Leaf => Leaf
  | Node l k' v r =>
      if key_lt k k' then Node (update f k l) k' v r
      else if key_lt k' k then Node l k' v (update f k r)
      else Node l k' (f v) r
  end.

Definition store (p : ptr K) (f : V → V) (b : t K V) : option (t K V) :=
  _ ← deref p b; Some (mk (update f p (root b)) (comparisons b)).

(** Modelled from the spec: [insert] adds a leaf for a new key and replaces
    the value of a key that is already there. No rebalancing. The spec
    gives it no part in the comparison count. *)
Fixpoint insert_node (k : K) (v : V) (t : tree K V) : tree K V :=
  match t with
  | Leaf => Node Leaf k v Leaf
  | Node l k' v' r =>
      if key_lt k k' then Node (insert_node k v l) k' v' r
      else if key_lt k' k then Node l k' v' (insert_node k v r)
      else Node l k' v r
  end.

Definition insert (k : K) (v : V) (b : t K V) : t K V :=
  mk (insert_node k v (root b)) (comparisons b).

(** The leftmost entry of the tree whose root is [Node l k v _]. *)
Fixpoint min_entry (l : tree K V) (k : K) (v : V) : K * V :=
  match l with
  | Leaf => (k, v)
  | Node ll lk lv _ => min_entry ll lk lv
  end.

Fixpoint remove_min (l : tree K V) (k : K) (v : V) (r : tree K V) : tree K V :=
  match l with
  | Leaf => r
  | Node ll lk lv lr => Node (remove_min ll lk lv lr) k v r
  end.

(** Modelled from the spec: [erase] is the standard deletion. A node with at
    most one child is spliced out; a node with two children is replaced by
    its in-order successor (the spec allows predecessor or successor). An
    absent key changes nothing. [splice l r] is what takes the place of a
    removed node whose children are [l] and [r]. *)
Definition splice (l r : tree K V) : tree K V :=
  match l, r with
  | Leaf, _ => r
  | _, Leaf => l
  | _, Node rl rk rv rr =>
      let '(sk, sv) := min_entry rl rk rv in
      Node l sk sv (remove_min rl rk rv rr)
  end.

Fixpoint erase_node (k : K) (t : tree K V) : tree K V :=
  match t with
  | Leaf => Leaf
  | Node l k' v' r =>
      if key_lt k k' then Node (erase_node k l) k' v' r
      else if key_lt k' k then Node l k' v' (erase_node k r)
      else splice l r
  end.

Definition erase (k : K) (b : t K V) : t K V :=
  mk (erase_node k (root b)) (comparisons b).

Definition resetMetrics (b : t K V) : t K V := mk (root b) 0.

(** Modelled from the spec: [rangeApply] walks the tree in order, calls the
    visitor on every node whose key lies in the closed range [lo, hi], and
    does not descend into a subtree that a comparison shows to lie outside
    the range. Every comparison is counted: one to decide on the left
    subtree, one or two for the range test of the node, one to decide on the
    right subtree. The visitors of [Engine.h] only read the key and the value
    and grow a result they capture by reference; that captured state is the
    accumulator [A]. *)
Fixpoint range_node {A : Type} (lo hi : K) (visit : K → V → A → A)
    (t : tree K V) (a : A) (c : nat) : A * nat :=
  match t with
  | Leaf => (a, c)
  | Node l k v r =>
      let '(a1, c1) :=
        if key_lt lo k then range_node lo hi visit l a (S c) else (a, S c) in
      let '(a2, c2) :=
        if key_le lo k
        then (if key_le k hi then (visit k v a1, S (S c1)) else (a1, S (S c1)))
        else (a1, S c1) in
      if key_lt k hi then range_node lo hi visit r a2 (S c2) else (a2, S c2)
  end.

Definition rangeApply {A : Type} (lo hi : K) (visit : K → V → A → A)
    (b : t K V) (a : A) : A * t K V :=
  let '(a', c) := range_node lo hi visit (root b) a (comparisons b) in
  (a', mk (root b) c).

(** The entries of a tree from left to right. *)
Fixpoint entries (t : tree K V) : list (K * V) :=
  match t with
  | Leaf => []
  | Node l k v r => entries l ++ (k, v) :: entries r
  end.

(** The search-tree order: everything to the left of a node is smaller than
    its key, everything to the right is larger. *)
Fixpoint all_keys (P : K → Prop) (t : tree K V) : Prop :=
  match t with
  | Leaf => True
  | Node l k _ r => all_keys P l ∧ P k ∧ all_keys P r
  end.

Fixpoint ordered (t : tree K V) : Prop :=
  match t with
  | Leaf => True
  | Node l k _ r =>
      ordered l ∧ ordered r ∧
      all_keys (λ x, key_lt x k = true) l ∧ all_keys (λ x, key_lt k x = true) r
  end.

(** The number of nodes on the search path of [k]: what one [find] adds to
    the counter. *)
Fixpoint find_cost (k : K) (t : tree K V) : nat :=
  match t with
  | Leaf => 0
  | Node l k' _ r =>
      if key_lt k k' then S (find_cost k l)
      else if key_lt k' k then S (find_cost k r)
      else 1
  end.

(** What one [rangeApply] adds to the counter. *)
Fixpoint range_cost (lo hi : K) (t : tree K V) : nat :=
  match t with
  | Leaf => 0
  | Node l k _ r =>
      (1 + (if key_lt lo k then range_cost lo hi l else 0) +
       (if key_le lo k then 2 else 1) +
       (1 + (if key_lt k hi then range_cost lo hi r else 0)))%nat
  end.

End ops.

Definition empty {K V : Type} : t K V := mk Leaf 0.

End BST.

(** ** Records and the heap *)

Module Rec.

(** Modelled from the spec: [Record.h] is not among the sources. A record
    has the unique key [id], the last name [last], the flag [deleted] that
    only the store writes, and further fields that the engine never looks
    at, kept here as one opaque [payload]. *)
Record t : Type := mk { id : Z; last : string; payload : string; deleted : bool }.

(** [rec.deleted = true] *)
Definition set_deleted (r : t) : t := mk (id r) (last r) (payload r) true.

End Rec.

(** [struct Engine] (Engine.h lines 26-31). *)
Record Engine : Type := mkEngine {
  heap : list Rec.t;
  idIndex : BST.t Z Z;
  lastIndex : BST.t string (list Z)
}.

Definition newEngine : Engine := mkEngine [] BST.empty BST.empty.

(** Heap positions are C++ [int]s. [int rid = heap.size()] converts a
    [size_t] to [int]: the value modulo [2^32], read as a signed number. *)
Definition INT_MAX : Z := 2147483647.

Definition int_of_size (n : nat) : Z :=
  let z := Z.of_nat n mod 2 ^ 32 in
  if z <? 2 ^ 31 then z else z - 2 ^ 32.

(** Operations that index the heap or read through a pointer have no defined
    outcome when the index is out of range or the pointer dangles. They
    return an [option], [None] standing for "no defined outcome". *)

(** [heap[p]], read. *)
Definition heap_at (h : list Rec.t) (p : Z) : option Rec.t :=
  if decide (0 ≤ p) then h !! Z.to_nat p else None.

(** [heap[p].deleted = true] *)
Definition heap_mark (p : Z) (h : list Rec.t) : option (list Rec.t) :=
  _ ← heap_at h p; Some (alter Rec.set_deleted (Z.to_nat p) h).

(** [v.erase(remove(v.begin(), v.end(), x), v.end())] *)
Definition remove_value (x : Z) (v : list Z) : list Z := filter (λ y, y ≠ x) v.

(** ** insertRecord (Engine.h lines 34-109)

    The result is the returned [int] and the engine after the call. The
    argument is a record value; a caller that hands in a reference to a slot
    of the engine's own heap is not modelled. *)
Definition insertRecord (e : Engine) (recIn : Rec.t) : option (Z * Engine) :=
  let '(existingIndex, idIndex1) := BST.find (Rec.id recIn) (idIndex e) in
  let rid := int_of_size (length (heap e)) in
  match existingIndex with
  | None =>
      let heap1 := heap e ++ [recIn] in
      let idIndex2 := BST.insert (Rec.id recIn) rid idIndex1 in
      let lastNameLower := toLower (Rec.last recIn) in
      let '(lastNameVector, lastIndex1) := BST.find lastNameLower (lastIndex e) in
      match lastNameVector with
      | None =>
          let newVector := [rid] in
          Some (rid, mkEngine heap1 idIndex2 (BST.insert lastNameLower newVector lastIndex1))
      | Some p =>
          lastIndex2 ← BST.store p (λ v, v ++ [rid]) lastIndex1;
          Some (rid, mkEngine heap1 idIndex2 lastIndex2)
      end
  | Some existing =>
      oldIndex ← BST.deref existing idIndex1;
      heap1 ← heap_mark oldIndex (heap e);
      old ← heap_at heap1 oldIndex;
      let oldLastNameLower := toLower (Rec.last old) in
      let '(oldLastNameVector, lastIndex1) := BST.find oldLastNameLower (lastIndex e) in
      lastIndex2 ←
        match oldLastNameVector with
        | Some p => BST.store p (remove_value oldIndex) lastIndex1
        | None => Some lastIndex1
        end;
      let heap2 := heap1 ++ [recIn] in
      let newRid := int_of_size (length heap2 - 1) in
      let idIndex2 := BST.erase (Rec.id recIn) idIndex1 in
      let idIndex3 := BST.insert (Rec.id recIn) newRid idIndex2 in
      let newLastNameLower := toLower (Rec.last recIn) in
      let '(newLastNameVector, lastIndex3) := BST.find newLastNameLower lastIndex2 in
      match newLastNameVector with
      | None =>
          Some (rid, mkEngine heap2 idIndex3 (BST.insert newLastNameLower [newRid] lastIndex3))
      | Some p =>
          lastIndex4 ← BST.store p (λ v, v ++ [newRid]) lastIndex3;
          Some (rid, mkEngine heap2 idIndex3 lastIndex4)
      end
  end.

(** ** deleteById (Engine.h lines 113-136)

    [heapIndex] points into the node of [id]. The function reads through it
    once before [idIndex.erase(id)] and twice after: for the last name of
    the record and for the value handed to [std::remove]. ([insertRecord]
    copies [*existingIndex] into the local [oldIndex] before it erases.) *)
Definition deleteById (e : Engine) (id : Z) : option (bool * Engine) :=
  let '(heapIndex, idIndex1) := BST.find id (idIndex e) in
  match heapIndex with
  | None => Some (false, mkEngine (heap e) idIndex1 (lastIndex e))
  | Some p =>
      pos ← BST.deref p idIndex1;
      heap1 ← heap_mark pos (heap e);
      let idIndex2 := BST.erase id idIndex1 in
      pos' ← BST.deref p idIndex2;
      r ← heap_at heap1 pos';
      let lastNameLower := toLower (Rec.last r) in
      let '(lastNameVector, lastIndex1) := BST.find lastNameLower (lastIndex e) in
      match lastNameVector with
      | Some q =>
          pos'' ← BST.deref p idIndex2;
          lastIndex2 ← BST.store q (remove_value pos'') lastIndex1;
          Some (true, mkEngine heap1 idIndex2 lastIndex2)
      | None => Some (true, mkEngine heap1 idIndex2 lastIndex1)
      end
  end.

(** ** findById (Engine.h lines 141-154)

    The result is the returned pointer, [cmpOut], and the engine after the
    call. A [const Record *] that points at [heap[p]] is the position [p];
    [nullptr] is [None]. The position says which slot of the heap the
    pointer designates when it is returned. The address of that slot is not
    represented: a later [heap.push_back] may move the vector, and a pointer
    returned before it is then no longer usable, although the slot keeps its
    position. The same holds for the pointers returned by [rangeById] and
    [prefixByLast]. *)
Definition findById (e : Engine) (id : Z) : option (option Z * nat * Engine) :=
  let idIndex0 := BST.resetMetrics (idIndex e) in
  let '(heapIndex, idIndex1) := BST.find id idIndex0 in
  let cmpOut := BST.comparisons idIndex1 in
  let e' := mkEngine (heap e) idIndex1 (lastIndex e) in
  match heapIndex with
  | None => Some (None, cmpOut, e')
  | Some p =>
      pos ← BST.deref p idIndex1;
      _ ← heap_at (heap e) pos;
      Some (Some pos, cmpOut, e')
  end.

(** The body of both callbacks:
    [if (!heap[rid].deleted) rangeResults.push_back(&heap[rid]);] *)
Definition collect_live (h : list Rec.t) (rid : Z)
    (rangeResults : option (list Z)) : option (list Z) :=
  res ← rangeResults;
  r ← heap_at h rid;
  Some (if Rec.deleted r then res else res ++ [rid]).

(** ** rangeById (Engine.h lines 158-178) *)
Definition rangeById (e : Engine) (lo hi : Z) : option (list Z * nat * Engine) :=
  let idIndex0 := BST.resetMetrics (idIndex e) in
  let callback := λ (_ : Z) (rid : Z), collect_live (heap e) rid in
  let '(res, idIndex1) := BST.rangeApply lo hi callback idIndex0 (Some []) in
  rangeResults ← res;
  Some (rangeResults, BST.comparisons idIndex1, mkEngine (heap e) idIndex1 (lastIndex e)).

(** ** prefixByLast (Engine.h lines 182-211) *)
Definition prefixByLast (e : Engine) (prefix : string) : option (list Z * nat * Engine) :=
  let lastIndex0 := BST.resetMetrics (lastIndex e) in
  let lowerBound := toLower prefix in
  let higherBound := (lowerBound ++ "{")%string in
  let lastIndex0' := BST.resetMetrics lastIndex0 in
  let callback := λ (_ : string) (ridList : list Z) (acc : option (list Z)),
    foldl (λ a rid, collect_live (heap e) rid a) acc ridList in
  let '(res, lastIndex1) := BST.rangeApply lowerBound higherBound callback lastIndex0' (Some []) in
  rangeResults ← res;
  Some (rangeResults, BST.comparisons lastIndex1, mkEngine (heap e) (idIndex e) lastIndex1).

(** The record a returned pointer points at. *)
Definition record_at (e : Engine) (p : Z) : option Rec.t := heap_at (heap e) p.

(** ** Well-formed stores

    A record is live when it sits in the heap with its flag clear. *)
Definition live (h : list Rec.t) (p : Z) (r : Rec.t) : Prop :=
  heap_at h p = Some r ∧ Rec.deleted r = false.

(** The invariants of the store (spec, data model, items 1 to 3), over the
    heap [h], the tree [ti] of the primary index and the tree [tl] of the
    secondary index. The comparison counters play no part. *)
Record inv (h : list Rec.t) (ti : BST.tree Z Z) (tl : BST.tree string (list Z)) : Prop := {
  inv_id_ordered : BST.ordered ti;
  inv_last_ordered : BST.ordered tl;
  inv_id_sound : ∀ i p, BST.lookup i ti = Some p → ∃ r, live h p r ∧ Rec.id r = i;
  inv_id_complete : ∀ p r, live h p r → BST.lookup (Rec.id r) ti = Some p;
  inv_last_sound : ∀ k b p,
    BST.lookup k tl = Some b → p ∈ b → ∃ r, live h p r ∧ toLower (Rec.last r) = k;
  inv_last_complete : ∀ p r,
    live h p r → ∃ b, BST.lookup (toLower (Rec.last r)) tl = Some b ∧ p ∈ b;
  inv_last_nodup : ∀ k b, BST.lookup k tl = Some b → NoDup b
}.

Definition store_inv (e : Engine) : Prop :=
  inv (heap e) (BST.root (idIndex e)) (BST.root (lastIndex e)).

(** The heap still has room for a position that fits an [int]. *)
Definition has_room (e : Engine) : Prop := Z.of_nat (length (heap e)) ≤ INT_MAX.

(** One public operation with a defined outcome. Records are handed to
    [insertRecord] with the [deleted] flag clear (the flag belongs to the
    store) and while the heap has room. *)
Inductive step : Engine → Engine → Prop :=
| step_insert e r v e' :
    Rec.deleted r = false → has_room e →
    insertRecord e r = Some (v, e') → step e e'
| step_delete e i b e' : deleteById e i = Some (b, e') → step e e'
| step_find e i res c e' : findById e i = Some (res, c, e') → step e e'
| step_range e lo hi res c e' : rangeById e lo hi = Some (res, c, e') → step e e'
| step_prefix e p res c e' : prefixByLast e p = Some (res, c, e') → step e e'.

Definition reachable (e : Engine) : Prop := rtc step newEngine e.

(** ** Vocabulary of the statements *)

(** The closed key range of [rangeApply]. *)
Definition in_range `{KeyOrder K} {V : Type} (lo hi : K) (kv : K * V) : Prop :=
  key_le lo kv.1 && key_le kv.1 hi = true.

#[global]
Instance in_range_dec `{KeyOrder K} {V : Type} (lo hi : K) (kv : K * V) :
  Decision (in_range lo hi kv).
Proof. unfold in_range. apply _. Defined.

(** What [insertRecord] does to the secondary index for a new position:
    [push_back] on the bucket of the name, or a new one-element bucket. *)
Definition add_to_bucket (k : string) (p : Z)
    (tl : BST.tree string (list Z)) : BST.tree string (list Z) :=
  match BST.lookup k tl with
  | None => BST.insert_node k [p] tl
  | Some _ => BST.update (λ v, v ++ [p]) k tl
  end.

(** A byte that sorts before the sentinel ['{'] (code 123). *)
Definition below_sentinel (c : ascii) : bool := (N_of_ascii c <? 123)%N.

Fixpoint all_chars (P : ascii → bool) (s : string) : bool :=
  match s with
  | EmptyString => true
  | String c s' => P c && all_chars P s'
  end.

(** An ASCII letter, upper or lower case. *)
Definition is_letter (c : ascii) : bool :=
  let n := N_of_ascii c in
  (((65 <=? n) && (n <=? 90)) || ((97 <=? n) && (n <=? 122)))%N.

(** [continues_below p k]: the string [k] is [p] followed by nothing, by a
    continuation whose first byte sorts before ['{'], or by ["{"] alone. *)
Fixpoint continues_below (p k : string) : bool :=
  match p, k with
  | EmptyString, EmptyString => true
  | EmptyString, String c k' => below_sentinel c || (Ascii.eqb c "{" && String.eqb k' "")
  | String _ _, EmptyString => false
  | String a p', String c k' => Ascii.eqb a c && continues_below p' k'
  end.

(** The same store with other values in the two comparison counters. *)
Definition with_counters (c1 c2 : nat) (e : Engine) : Engine :=
  mkEngine (heap e)
           (BST.mk (BST.root (idIndex e)) c1)
           (BST.mk (BST.root (lastIndex e)) c2).

(** The [cmpOut] of a query, when the query has a defined outcome. *)
Definition cmpOut {A : Type} (o : option (A * nat * Engine)) : option nat :=
  x ← o; Some x.1.2.

(** ** Sample stores *)

(** [insertRecord] for each record of a list, in order. *)
Definition insert_all (rs : list Rec.t) (e : Engine) : option Engine :=
  foldl (λ oe r, e0 ← oe; x ← insertRecord e0 r; Some x.2) (Some e) rs.

Definition sample_record (i : Z) (name : string) : Rec.t := Rec.mk i name "" false.

(** Ids 10, 5, 20, 1 with last names Lee, Kim, Kim, Park (the scenario of
    the spec's testable properties). *)
Definition sample_store : Engine :=
  default newEngine
    (insert_all [sample_record 10 "Lee"; sample_record 5 "Kim";
                 sample_record 20 "Kim"; sample_record 1 "Park"] newEngine).

(** One record, id 7, last name Kim. *)
Definition single_store : Engine :=
  default newEngine (insert_all [sample_record 7 "Kim"] newEngine).

(** Ids 2, 1, 3: the node of id 2 is the root and has two children. *)
Definition three_store : Engine :=
  default newEngine
    (insert_all [sample_record 2 "Bo"; sample_record 1 "Al";
                 sample_record 3 "Cy"] newEngine).

(** A last name with a byte above ['z']: "Muñoz" in UTF-8 is the bytes
    4D 75 C3 B1 6F 7A. *)
Definition munoz : string :=
  String "M" (String "u" (String (ascii_of_N 195) (String (ascii_of_N 177)
    (String "o" (String "z" EmptyString))))).

Definition munoz_store : Engine :=
  default newEngine (insert_all [sample_record 4 munoz] newEngine).

(** A store that breaks the invariants: id 7 is indexed at position 0 and
    the record there is flagged as deleted. *)
Definition stale_store : Engine :=
  mkEngine [Rec.mk 7 "Kim" "" true]
           (BST.insert 7 0 BST.empty)
           (BST.insert "kim"%string [0] BST.empty).

(** The key range closed on the left and open on the right. *)
Definition in_half_open `{KeyOrder K} {V : Type} (lo hi : K) (kv : K * V) : Prop :=
  key_le lo kv.1 && key_lt kv.1 hi = true.

#[global]
Instance in_half_open_dec `{KeyOrder K} {V : Type} (lo hi : K) (kv : K * V) :
  Decision (in_half_open lo hi kv).
Proof. unfold in_half_open. apply _. Defined.

(** ** Vocabulary of the further properties *)

(** An upper-case ASCII letter: the bytes [tolower] moves. *)
Definition is_upper (c : ascii) : bool :=
  let n := N_of_ascii c in ((65 <=? n) && (n <=? 90))%N.

(** The same record up to its [deleted] flag. *)
Definition same_fields (r r' : Rec.t) : Prop :=
  Rec.id r' = Rec.id r ∧ Rec.last r' = Rec.last r ∧ Rec.payload r' = Rec.payload r.

(** The two stores hold the same heap and the same index entries; they may
    differ in the comparison counters. *)
Definition same_store (e e' : Engine) : Prop :=
  heap e' = heap e ∧
  BST.root (idIndex e') = BST.root (idIndex e) ∧
  BST.root (lastIndex e') = BST.root (lastIndex e).

(** One operation that only reads: a query, or a [deleteById] that returns
    false. *)
Inductive read_step : Engine → Engine → Prop :=
| read_find e i res c e' : findById e i = Some (res, c, e') → read_step e e'
| read_range e lo hi res c e' : rangeById e lo hi = Some (res, c, e') → read_step e e'
| read_prefix e p res c e' : prefixByLast e p = Some (res, c, e') → read_step e e'
| read_delete e i e' : deleteById e i = Some (false, e') → read_step e e'.

(** What the caller of a query sees: the result and [cmpOut]. *)
Definition answer {A : Type} (o : option (A * nat * Engine)) : option (A * nat) :=
  x ← o; Some x.1.

(** Every bucket of the secondary index lists its positions in ascending
    order. *)
Definition buckets_sorted (tl : BST.tree string (list Z)) : Prop :=
  ∀ k b, BST.lookup k tl = Some b → StronglySorted Z.lt b.

(** The order of the results of [prefixByLast]: by lower-cased last name,
    then by heap position. *)
Definition name_then_position (a b : string * Z) : Prop :=
  key_lt a.1 b.1 = true ∨ (a.1 = b.1 ∧ a.2 < b.2).

(** The (name, position) pairs of a list of buckets, bucket after bucket. *)
Definition bucket_pairs (L : list (string * list Z)) : list (string * Z) :=
  concat ((λ kb : string * list Z, (λ p : Z, (kb.1, p)) <$> kb.2) <$> L).

(** The store after id 7 of [single_store] was given a new record. *)
Definition updated_store : Engine :=
  default single_store
    (x ← insertRecord single_store (sample_record 7 "Lee"); Some x.2).

(** * Facts about ordered keys *)

Section key_facts.
Context `{KeyOrder K}.

Lemma key_lt_asym (a b : K) : key_lt a b = true → key_lt b a = false.
Proof.
  intros Hab. destruct (key_lt b a) eqn:Hba; [|done].
  by rewrite <-(key_lt_irrefl a), (key_lt_trans a b a).
Qed.

Lemma key_lt_ne (a b : K) : key_lt a b = true → a ≠ b.
Proof. intros Hab ->. by rewrite key_lt_irrefl in Hab. Qed.

Lemma key_trichotomy (a b : K) :
  (key_lt a b = true ∧ key_lt b a = false) ∨
  (a = b ∧ key_lt a b = false ∧ key_lt b a = false) ∨
  (key_lt a b = false ∧ key_lt b a = true).
Proof.
  destruct (key_lt a b) eqn:Hab.
  - left. eauto using key_lt_asym.
  - destruct (key_lt b a) eqn:Hba; [by right; right|].
    right; left. eauto using key_lt_total.
Qed.

Lemma key_le_lt_trans (a b c : K) :
  key_le a b = true → key_lt b c = true → key_lt a c = true.
Proof.
  unfold key_le. intros Hab Hbc.
  destruct (key_trichotomy a b) as [[? _]|[[-> _]|[_ Hba]]];
    [eauto using key_lt_trans|done|by rewrite Hba in Hab].
Qed.

Lemma key_lt_le_trans (a b c : K) :
  key_lt a b = true → key_le b c = true → key_lt a c = true.
Proof.
  unfold key_le. intros Hab Hbc.
  destruct (key_trichotomy b c) as [[? _]|[[-> _]|[_ Hcb]]];
    [eauto using key_lt_trans|done|by rewrite Hcb in Hbc].
Qed.

Lemma key_eq_dec : EqDecision K.
Proof.
  intros a b. destruct (key_lt a b) eqn:Hab.
  - right. by apply key_lt_ne.
  - destruct (key_lt b a) eqn:Hba.
    + right. intros ->. by rewrite key_lt_irrefl in Hba.
    + left. by apply key_lt_total.
Qed.

End key_facts.

(** Case analysis on how two keys compare, rewriting both tests. *)
Ltac key_cases a b :=
  let H1 := fresh "Hlt" in
  let H2 := fresh "Hgt" in
  destruct (key_trichotomy a b) as [[H1 H2]|[[? [H1 H2]]|[H1 H2]]];
  [|subst|]; rewrite ?H1, ?H2 in *.

(** * Facts about the index *)

Module BSTFacts.
Import BST.
#[local] Set Warnings "-clear-no-such-hyp".

Section facts.
Context `{KeyOrder K} {V : Type}.
Implicit Types (t l r : tree K V) (k : K) (v : V).

Lemma find_node_spec k t c :
  find_node k t c = (match lookup k t with Some _ => Some k | None => None end,
                     (c + find_cost k t)%nat).
Proof.
  revert c. induction t as [|l IHl k' v' r IHr]; intros c; simpl.
  - f_equal. lia.
  - key_cases k k'.
    + rewrite IHl. f_equal. lia.
    + f_equal. lia.
    + rewrite IHr. f_equal. lia.
Qed.

Lemma all_keys_impl (P Q : K → Prop) t :
  (∀ k, P k → Q k) → all_keys P t → all_keys Q t.
Proof. intros HPQ. induction t; simpl; naive_solver. Qed.

Lemma lookup_all_keys (P : K → Prop) k t v :
  all_keys P t → lookup k t = Some v → P k.
Proof.
  induction t as [|l IHl k' v' r IHr]; simpl; [done|].
  intros (Hl & Hk & Hr). key_cases k k'; eauto.
Qed.

Lemma lookup_None_lt k k' t :
  all_keys (λ x, key_lt k' x = true) t → key_le k k' = true → lookup k t = None.
Proof.
  intros Hall Hle. destruct (lookup k t) as [v|] eqn:Hl; [|done].
  apply (lookup_all_keys _ _ _ _ Hall) in Hl. simpl in Hl.
  unfold key_le in Hle. by rewrite Hl in Hle.
Qed.

Lemma lookup_None_gt k k' t :
  all_keys (λ x, key_lt x k' = true) t → key_le k' k = true → lookup k t = None.
Proof.
  intros Hall Hle. destruct (lookup k t) as [v|] eqn:Hl; [|done].
  apply (lookup_all_keys _ _ _ _ Hall) in Hl. simpl in Hl.
  unfold key_le in Hle. by rewrite Hl in Hle.
Qed.

(** *** insert *)

Lemma lookup_insert_eq k v t : lookup k (insert_node k v t) = Some v.
Proof.
  induction t as [|l IHl k' v' r IHr]; simpl.
  - by rewrite key_lt_irrefl.
  - key_cases k k'; simpl; rewrite ?Hlt, ?Hgt, ?key_lt_irrefl; done.
Qed.

Lemma lookup_insert_ne k k1 v t :
  k1 ≠ k → lookup k1 (insert_node k v t) = lookup k1 t.
Proof.
  intros Hne. induction t as [|l IHl k' v' r IHr]; simpl.
  - key_cases k1 k; done.
  - key_cases k k'; simpl; key_cases k1 k'; done.
Qed.

Lemma all_keys_insert (P : K → Prop) k v t :
  P k → all_keys P t → all_keys P (insert_node k v t).
Proof.
  intros Hk. induction t as [|l IHl k' v' r IHr]; simpl; [done|].
  intros (Hl & Hk' & Hr). key_cases k k'; simpl; auto.
Qed.

Lemma ordered_insert k v t : ordered t → ordered (insert_node k v t).
Proof.
  induction t as [|l IHl k' v' r IHr]; simpl; [done|].
  intros (Hl & Hr & Hlk & Hrk).
  key_cases k k'; simpl; auto using all_keys_insert.
Qed.

(** *** writing through a pointer *)

Lemma lookup_update_eq f k t : lookup k (update f k t) = f <$> lookup k t.
Proof.
  induction t as [|l IHl k' v' r IHr]; simpl; [done|].
  key_cases k k'; simpl; rewrite ?Hlt, ?Hgt, ?key_lt_irrefl; done.
Qed.

Lemma lookup_update_ne f k k1 t :
  k1 ≠ k → lookup k1 (update f k t) = lookup k1 t.
Proof.
  intros Hne. induction t as [|l IHl k' v' r IHr]; simpl; [done|].
  key_cases k k'; simpl; key_cases k1 k'; done.
Qed.

Lemma all_keys_update (P : K → Prop) f k t :
  all_keys P t → all_keys P (update f k t).
Proof.
  induction t as [|l IHl k' v' r IHr]; simpl; [done|].
  intros (Hl & Hk' & Hr). key_cases k k'; simpl; auto.
Qed.

Lemma ordered_update f k t : ordered t → ordered (update f k t).
Proof.
  induction t as [|l IHl k' v' r IHr]; simpl; [done|].
  intros (Hl & Hr & Hlk & Hrk).
  key_cases k k'; simpl; auto using all_keys_update.
Qed.

Lemma update_absent f k t : lookup k t = None → update f k t = t.
Proof.
  induction t as [|l IHl k' v' r IHr]; simpl; [done|].
  key_cases k k'; intros Hl; rewrite ?IHl, ?IHr; done.
Qed.

Lemma store_Some f k v (b : t K V) :
  lookup k (root b) = Some v →
  store k f b = Some (mk (update f k (root b)) (comparisons b)).
Proof. intros Hk. unfold store, deref. by rewrite Hk. Qed.

(** *** erase *)

Lemma min_entry_all_keys (P : K → Prop) l k v :
  all_keys P l → P k → P (min_entry l k v).1.
Proof. revert k v. induction l as [|ll IHl lk lv lr _]; simpl; naive_solver. Qed.

Lemma remove_min_all_keys (P : K → Prop) l k v r :
  all_keys P l → P k → all_keys P r → all_keys P (remove_min l k v r).
Proof. revert k v r. induction l as [|ll IHl lk lv lr _]; simpl; naive_solver. Qed.

Lemma min_entry_below l k v r :
  ordered (Node l k v r) →
  all_keys (λ x, key_lt (min_entry l k v).1 x = true) (remove_min l k v r).
Proof.
  revert k v r. induction l as [|ll IHl lk lv lr _]; intros k v r; simpl.
  - naive_solver.
  - intros ((Hll & Hlr & Hllk & Hlrk) & Hr & (Hl1 & Hlk & Hl2) & Hrk).
    split_and!.
    + apply IHl. simpl. done.
    + by apply (min_entry_all_keys (λ y, key_lt y k = true)).
    + eapply all_keys_impl; [|exact Hrk]. simpl. intros x Hx.
      eapply key_lt_trans; [|exact Hx].
      apply (min_entry_all_keys (λ y, key_lt y k = true)); done.
Qed.

Lemma min_entry_lt_bound l k v b :
  all_keys (λ x, key_lt x b = true) l → key_lt k b = true →
  key_lt (min_entry l k v).1 b = true.
Proof. apply (min_entry_all_keys (λ y, key_lt y b = true)). Qed.

Lemma ordered_remove_min l k v r :
  ordered (Node l k v r) → ordered (remove_min l k v r).
Proof.
  revert k v r. induction l as [|ll IHl lk lv lr _]; intros k v r; simpl.
  - naive_solver.
  - intros ((Hll & Hlr & Hllk & Hlrk) & Hr & (Hl1 & Hlk & Hl2) & Hrk).
    split_and!; [by apply IHl|done| |done].
    by apply remove_min_all_keys.
Qed.

Lemma lookup_min_entry l k v r :
  ordered (Node l k v r) →
  lookup (min_entry l k v).1 (Node l k v r) = Some (min_entry l k v).2.
Proof.
  revert k v r. induction l as [|ll IHl lk lv lr _]; intros k v r.
  - simpl. by rewrite key_lt_irrefl.
  - intros (Hl & Hr & Hlk & Hrk).
    change (min_entry (Node ll lk lv lr) k v) with (min_entry ll lk lv).
    rewrite <-(IHl lk lv lr Hl).
    destruct Hlk as (Hl1 & Hlk & Hl2).
    change (lookup ?a (Node ?x k v r)) with
      (if key_lt a k then lookup a x else if key_lt k a then lookup a r else Some v).
    by rewrite (min_entry_lt_bound ll lk lv k).
Qed.

Lemma lookup_remove_min_eq l k v r :
  ordered (Node l k v r) → lookup (min_entry l k v).1 (remove_min l k v r) = None.
Proof.
  intros Hord. eapply lookup_None_lt; [by apply min_entry_below|].
  unfold key_le. by rewrite key_lt_irrefl.
Qed.

Lemma lookup_remove_min_ne l k v r k1 :
  ordered (Node l k v r) → k1 ≠ (min_entry l k v).1 →
  lookup k1 (remove_min l k v r) = lookup k1 (Node l k v r).
Proof.
  revert k v r. induction l as [|ll IHl lk lv lr _]; intros k v r.
  - simpl. intros (_ & _ & _ & Hrk) Hne. key_cases k1 k; try done.
    eapply lookup_None_lt; [exact Hrk|]. unfold key_le. by rewrite Hgt.
  - intros (Hl & Hr & Hlk & Hrk) Hne.
    change (remove_min (Node ll lk lv lr) k v r)
      with (Node (remove_min ll lk lv lr) k v r).
    change (lookup k1 (Node ?x k v r)) with
      (if key_lt k1 k then lookup k1 x else if key_lt k k1 then lookup k1 r else Some v).
    by rewrite IHl.
Qed.

Lemma node_lookup k1 l k v r :
  lookup k1 (Node l k v r) =
    if key_lt k1 k then lookup k1 l else if key_lt k k1 then lookup k1 r else Some v.
Proof. done. Qed.

Lemma node_ordered l k v r :
  ordered (Node l k v r) ↔
    ordered l ∧ ordered r ∧
    all_keys (λ x, key_lt x k = true) l ∧ all_keys (λ x, key_lt k x = true) r.
Proof. done. Qed.

Lemma all_keys_splice (P : K → Prop) l r :
  all_keys P l → all_keys P r → all_keys P (splice l r).
Proof.
  intros Hl Hr. destruct l as [|ll lk lv lr]; [done|].
  destruct r as [|rl rk rv rr]; [done|].
  cbn [splice]. destruct (min_entry rl rk rv) as [sk sv] eqn:Hmin.
  destruct Hr as (Hrl & Hrk & Hrr). split_and!; [done| |].
  - change sk with (sk, sv).1. rewrite <-Hmin. by apply min_entry_all_keys.
  - by apply remove_min_all_keys.
Qed.

Lemma ordered_splice l k v r : ordered (Node l k v r) → ordered (splice l r).
Proof.
  intros (Hl & Hr & Hlk & Hrk). destruct l as [|ll lk lv lr]; [done|].
  destruct r as [|rl rk rv rr]; [done|].
  pose proof (min_entry_below rl rk rv rr Hr) as Hbelow.
  pose proof (ordered_remove_min rl rk rv rr Hr) as Hrm.
  assert (key_lt k (min_entry rl rk rv).1 = true) as Hsk.
  { destruct Hrk as (? & ? & ?).
    by apply (min_entry_all_keys (λ y, key_lt k y = true)). }
  cbn [splice]. destruct (min_entry rl rk rv) as [sk sv]. cbn [fst] in Hbelow, Hsk.
  apply node_ordered. split_and!; [done|done| |done].
  eapply all_keys_impl; [|exact Hlk]. simpl. eauto using key_lt_trans.
Qed.

Lemma lookup_splice_eq l k v r : ordered (Node l k v r) → lookup k (splice l r) = None.
Proof.
  intros (Hl & Hr & Hlk & Hrk).
  assert (lookup k l = None) as Hnl.
  { eapply lookup_None_gt; [exact Hlk|]. unfold key_le. by rewrite key_lt_irrefl. }
  assert (lookup k r = None) as Hnr.
  { eapply lookup_None_lt; [exact Hrk|]. unfold key_le. by rewrite key_lt_irrefl. }
  destruct l as [|ll lk lv lr]; [done|].
  destruct r as [|rl rk rv rr]; [done|].
  assert (key_lt k (min_entry rl rk rv).1 = true) as Hsk.
  { destruct Hrk as (? & ? & ?).
    by apply (min_entry_all_keys (λ y, key_lt k y = true)). }
  cbn [splice]. destruct (min_entry rl rk rv) as [sk sv]. cbn [fst] in Hsk.
  by rewrite node_lookup, Hsk.
Qed.

Lemma lookup_splice_ne l k v r k1 :
  ordered (Node l k v r) → k1 ≠ k →
  lookup k1 (splice l r) = lookup k1 (Node l k v r).
Proof.
  intros (Hl & Hr & Hlk & Hrk) Hne. rewrite node_lookup.
  assert (key_lt k1 k = true → lookup k1 r = None) as Hnr.
  { intros Hk1. eapply lookup_None_lt; [exact Hrk|].
    unfold key_le. by rewrite (key_lt_asym _ _ Hk1). }
  assert (key_lt k k1 = true → lookup k1 l = None) as Hnl.
  { intros Hk1. eapply lookup_None_gt; [exact Hlk|].
    unfold key_le. by rewrite (key_lt_asym _ _ Hk1). }
  destruct l as [|ll lk lv lr].
  { cbn [splice]. key_cases k1 k; try done; auto. }
  destruct r as [|rl rk rv rr].
  { cbn [splice]. key_cases k1 k; try done. by rewrite Hnl. }
  assert (key_lt k (min_entry rl rk rv).1 = true) as Hsk.
  { destruct Hrk as (? & ? & ?).
    by apply (min_entry_all_keys (λ y, key_lt k y = true)). }
  pose proof (lookup_min_entry rl rk rv rr Hr) as Hmin.
  pose proof (lookup_remove_min_ne rl rk rv rr k1 Hr) as Hrm.
  pose proof (min_entry_below rl rk rv rr Hr) as Hbelow.
  cbn [splice].
  destruct (min_entry rl rk rv) as [sk sv]. cbn [fst snd] in Hsk, Hmin, Hrm, Hbelow.
  rewrite node_lookup.
  generalize dependent (Node rl rk rv rr). intros R Hr Hrk Hnr Hmin Hrm.
  generalize dependent (Node ll lk lv lr). intros L Hl Hlk Hnl.
  key_cases k1 k.
  - by rewrite (key_lt_trans k1 k sk).
  - done.
  - key_cases k1 sk.
    + rewrite Hnl by done. rewrite <-Hrm by (by apply key_lt_ne). symmetry.
      eapply lookup_None_lt; [exact Hbelow|]. unfold key_le. by rewrite Hgt0.
    + done.
    + apply Hrm. intros ->. by rewrite key_lt_irrefl in Hgt0.
Qed.

Lemma all_keys_erase (P : K → Prop) k t :
  all_keys P t → all_keys P (erase_node k t).
Proof.
  induction t as [|l IHl k' v' r IHr]; simpl; [done|].
  intros (Hl & Hk' & Hr). key_cases k k'; simpl; auto using all_keys_splice.
Qed.

Lemma ordered_erase k t : ordered t → ordered (erase_node k t).
Proof.
  induction t as [|l IHl k' v' r IHr]; [done|].
  intros Hord. pose proof Hord as (Hl & Hr & Hlk & Hrk). cbn [erase_node].
  key_cases k k'.
  - apply node_ordered. auto using all_keys_erase.
  - by eapply ordered_splice.
  - apply node_ordered. auto using all_keys_erase.
Qed.

Lemma lookup_erase_eq k t : ordered t → lookup k (erase_node k t) = None.
Proof.
  induction t as [|l IHl k' v' r IHr]; [done|].
  intros Hord. pose proof Hord as (Hl & Hr & Hlk & Hrk). cbn [erase_node].
  key_cases k k'.
  - rewrite node_lookup, Hlt. auto.
  - by eapply lookup_splice_eq.
  - rewrite node_lookup, Hlt, Hgt. auto.
Qed.

Lemma lookup_erase_ne k k1 t :
  ordered t → k1 ≠ k → lookup k1 (erase_node k t) = lookup k1 t.
Proof.
  intros Hord Hne. induction t as [|l IHl k' v' r IHr]; [done|].
  pose proof Hord as (Hl & Hr & Hlk & Hrk). cbn [erase_node].
  key_cases k k'.
  - rewrite !node_lookup, IHl; done.
  - by eapply lookup_splice_ne.
  - rewrite !node_lookup, IHr; done.
Qed.

(** *** entries *)

Lemma all_keys_entries (P : K → Prop) t :
  all_keys P t ↔ Forall (λ kv, P kv.1) (entries t).
Proof.
  induction t as [|l IHl k v r IHr]; simpl.
  - split; [constructor|done].
  - rewrite Forall_app, Forall_cons, IHl, IHr. naive_solver.
Qed.

Lemma elem_of_entries k v t :
  ordered t → (k, v) ∈ entries t ↔ lookup k t = Some v.
Proof.
  induction t as [|l IHl k' v' r IHr]; simpl.
  - intros _. split; [by intros ?%elem_of_nil|done].
  - intros (Hl & Hr & Hlk & Hrk).
    rewrite elem_of_app, elem_of_cons, (IHl Hl), (IHr Hr).
    split.
    + intros [Hin|[Heq|Hin]].
      * by rewrite (lookup_all_keys _ _ _ _ Hlk Hin).
      * injection Heq as -> ->. by rewrite key_lt_irrefl.
      * pose proof (lookup_all_keys _ _ _ _ Hrk Hin) as Hk. simpl in Hk.
        by rewrite (key_lt_asym _ _ Hk), Hk.
    + key_cases k k'; [auto| |auto]. intros [= ->]. auto.
Qed.

Lemma entries_sorted t :
  ordered t → StronglySorted (λ a b, key_lt a.1 b.1 = true) (entries t).
Proof.
  induction t as [|l IHl k v r IHr]; simpl; [constructor|].
  intros (Hl & Hr & Hlk & Hrk).
  apply all_keys_entries in Hlk, Hrk.
  apply StronglySorted_app_2; [|auto|constructor; auto].
  intros a b Ha [->|Hb]%elem_of_cons.
  - by apply (proj1 (Forall_forall _ _) Hlk).
  - eapply key_lt_trans.
    + by apply (proj1 (Forall_forall _ _) Hlk).
    + by apply (proj1 (Forall_forall _ _) Hrk).
Qed.

(** *** find and rangeApply *)

Lemma find_spec k (b : t K V) :
  find k b = (match lookup k (root b) with Some _ => Some k | None => None end,
              mk (root b) (comparisons b + find_cost k (root b))).
Proof. unfold find. by rewrite find_node_spec. Qed.

Lemma filter_none {A} (P : A → Prop) `{∀ x, Decision (P x)} (l : list A) :
  Forall (λ x, ¬ P x) l → filter P l = [].
Proof.
  induction 1 as [|x l Hx _ IH]; [done|].
  by rewrite filter_cons_False.
Qed.

Lemma range_node_spec {A} lo hi (visit : K → V → A → A) t a c :
  ordered t →
  range_node lo hi visit t a c =
    (foldl (λ acc kv, visit kv.1 kv.2 acc) a (filter (in_range lo hi) (entries t)),
     (c + range_cost lo hi t)%nat).
Proof.
  revert a c. induction t as [|l IHl k v r IHr]; intros a c; simpl.
  - intros _. f_equal. lia.
  - intros (Hl & Hr & Hlk & Hrk).
    rewrite filter_app, filter_cons, foldl_app.
    assert (key_lt lo k = false → filter (in_range lo hi) (entries l) = []) as Hskipl.
    { intros Hlo. apply filter_none. apply all_keys_entries in Hlk.
      eapply Forall_impl; [exact Hlk|]. intros [x w] Hx. simpl in Hx.
      unfold in_range, key_le. simpl.
      assert (key_lt x lo = true) as ->; [|done].
      eapply key_lt_le_trans; [exact Hx|]. unfold key_le. by rewrite Hlo. }
    assert (key_lt k hi = false → filter (in_range lo hi) (entries r) = []) as Hskipr.
    { intros Hhi. apply filter_none. apply all_keys_entries in Hrk.
      eapply Forall_impl; [exact Hrk|]. intros [x w] Hx. simpl in Hx.
      unfold in_range, key_le. simpl.
      assert (key_lt hi x = true) as ->; [|by rewrite andb_false_r].
      eapply key_le_lt_trans; [|exact Hx]. unfold key_le. by rewrite Hhi. }
    set (g := λ acc kv, visit kv.1 kv.2 acc) in *.
    destruct (key_lt lo k) eqn:Hlo;
      [rewrite (IHl _ _ Hl)|rewrite (Hskipl eq_refl); simpl];
      (destruct (key_le lo k) eqn:Hle;
         [destruct (key_le k hi) eqn:Hle2|];
         (destruct (key_lt k hi) eqn:Hhi;
            [rewrite (IHr _ _ Hr)|rewrite (Hskipr eq_refl); simpl]));
      (case_decide as Hin; unfold in_range in Hin; simpl in Hin;
         rewrite ?Hle, ?Hle2 in Hin; simpl in Hin; try done);
      simpl; f_equal; lia.
Qed.

Lemma rangeApply_spec {A} lo hi (visit : K → V → A → A) (b : t K V) a :
  ordered (root b) →
  rangeApply lo hi visit b a =
    (foldl (λ acc kv, visit kv.1 kv.2 acc) a (filter (in_range lo hi) (entries (root b))),
     mk (root b) (comparisons b + range_cost lo hi (root b))).
Proof. intros Hord. unfold rangeApply. by rewrite range_node_spec. Qed.

End facts.
End BSTFacts.

(** * Facts about the heap *)

Lemma int_of_size_fits (n : nat) : Z.of_nat n ≤ INT_MAX → int_of_size n = Z.of_nat n.
Proof.
  unfold INT_MAX, int_of_size. intros Hn.
  rewrite Z.mod_small by lia.
  destruct (Z.ltb_spec (Z.of_nat n) (2 ^ 31)); lia.
Qed.

Lemma heap_at_Some (h : list Rec.t) p r :
  heap_at h p = Some r ↔ 0 ≤ p ∧ h !! Z.to_nat p = Some r.
Proof. unfold heap_at. case_decide; naive_solver. Qed.

Lemma heap_at_range (h : list Rec.t) p r :
  heap_at h p = Some r → 0 ≤ p < Z.of_nat (length h).
Proof. intros (Hp & Hl%lookup_lt_Some)%heap_at_Some. lia. Qed.

Lemma heap_at_snoc (h : list Rec.t) x p r :
  heap_at (h ++ [x]) p = Some r ↔
    heap_at h p = Some r ∨ (p = Z.of_nat (length h) ∧ r = x).
Proof.
  rewrite !heap_at_Some, lookup_snoc_Some. split.
  - intros (Hp & [[_ Hl]|[Hlen ->]]); [by left|right]. split; [lia|done].
  - intros [[Hp Hl]|[-> ->]].
    + split; [done|left]. split; [by eapply lookup_lt_Some|done].
    + split; [lia|right]. split; [lia|done].
Qed.

Lemma heap_at_alter_eq (h : list Rec.t) f p :
  heap_at (alter f (Z.to_nat p) h) p = f <$> heap_at h p.
Proof. unfold heap_at. case_decide; [|done]. apply list_lookup_alter_eq. Qed.

Lemma heap_at_alter_ne (h : list Rec.t) f o p :
  0 ≤ o → p ≠ o → heap_at (alter f (Z.to_nat o) h) p = heap_at h p.
Proof.
  intros Ho Hne. unfold heap_at. case_decide; [|done].
  apply list_lookup_alter_ne. lia.
Qed.

Lemma heap_mark_Some (h : list Rec.t) o ro :
  heap_at h o = Some ro →
  heap_mark o h = Some (alter Rec.set_deleted (Z.to_nat o) h).
Proof. intros Ho. unfold heap_mark. by rewrite Ho. Qed.

Lemma live_snoc h x p r :
  live (h ++ [x]) p r ↔
    live h p r ∨ (p = Z.of_nat (length h) ∧ r = x ∧ Rec.deleted x = false).
Proof. unfold live. rewrite heap_at_snoc. naive_solver. Qed.

Lemma live_range h p r : live h p r → 0 ≤ p < Z.of_nat (length h).
Proof. intros [Hp _]. by eapply heap_at_range. Qed.

Lemma live_mark h o p r :
  0 ≤ o → live (alter Rec.set_deleted (Z.to_nat o) h) p r ↔ live h p r ∧ p ≠ o.
Proof.
  intros Ho. unfold live. destruct (decide (p = o)) as [->|Hne].
  - rewrite heap_at_alter_eq. split; [|naive_solver].
    intros [Hr Hd]. destruct (heap_at h o) as [r0|]; simplify_eq/=.
  - rewrite heap_at_alter_ne by done. naive_solver.
Qed.

Lemma live_inj h p r1 r2 : live h p r1 → live h p r2 → r1 = r2.
Proof. intros [H1 _] [H2 _]. congruence. Qed.

(** * The store invariant is kept *)

Section invariant.
Import BST BSTFacts.

Lemma lookup_add_to_bucket k kr p tl :
  lookup k (add_to_bucket kr p tl) =
    if decide (k = kr) then Some (default [] (lookup kr tl) ++ [p]) else lookup k tl.
Proof.
  unfold add_to_bucket. case_decide as Hk; [subst k|].
  - destruct (lookup kr tl) as [b|] eqn:Hb; simpl.
    + by rewrite lookup_update_eq, Hb.
    + by rewrite lookup_insert_eq.
  - destruct (lookup kr tl) as [b|] eqn:Hb.
    + by rewrite lookup_update_ne.
    + by rewrite lookup_insert_ne.
Qed.

Lemma ordered_add_to_bucket kr p tl : ordered tl → ordered (add_to_bucket kr p tl).
Proof.
  unfold add_to_bucket. destruct (lookup kr tl);
    auto using ordered_update, ordered_insert.
Qed.

(** Appending a record whose id is not indexed, and indexing it. *)
Lemma add_inv h ti tl r :
  inv h ti tl → lookup (Rec.id r) ti = None → Rec.deleted r = false →
  inv (h ++ [r])
      (insert_node (Rec.id r) (Z.of_nat (length h)) ti)
      (add_to_bucket (toLower (Rec.last r)) (Z.of_nat (length h)) tl).
Proof.
  intros [Hio Hlo Hi1 Hi2 Hl1 Hl2 Hnd] Hnew Hdel. split.
  - by apply ordered_insert.
  - by apply ordered_add_to_bucket.
  - intros i p. destruct (decide (i = Rec.id r)) as [->|Hne].
    + rewrite lookup_insert_eq. intros [= <-]. exists r.
      split; [|done]. apply live_snoc. by right.
    + rewrite lookup_insert_ne by done. intros (r' & Hlive & Hid)%Hi1.
      exists r'. split; [|done]. apply live_snoc. by left.
  - intros p r' [Hlive|(-> & -> & _)]%live_snoc.
    + rewrite lookup_insert_ne; [by apply Hi2|].
      intros Heq. apply Hi2 in Hlive. congruence.
    + apply lookup_insert_eq.
  - intros k b p. rewrite lookup_add_to_bucket. case_decide as Hk.
    + intros [= <-] [Hin| ->%list_elem_of_singleton]%elem_of_app.
      * destruct (lookup (toLower (Rec.last r)) tl) as [b0|] eqn:Hb0;
          [|by apply elem_of_nil in Hin].
        destruct (Hl1 _ _ _ Hb0 Hin) as (r' & Hlive & Hkey).
        exists r'. split; [|congruence]. apply live_snoc. by left.
      * exists r. split; [|done]. apply live_snoc. by right.
    + intros Hb Hin. destruct (Hl1 _ _ _ Hb Hin) as (r' & Hlive & Hkey).
      exists r'. split; [|done]. apply live_snoc. by left.
  - intros p r' [Hlive|(-> & -> & _)]%live_snoc.
    + destruct (Hl2 _ _ Hlive) as (b & Hb & Hin).
      rewrite lookup_add_to_bucket. case_decide as Hk.
      * rewrite <-Hk, Hb. eexists. split; [done|]. apply elem_of_app. by left.
      * by exists b.
    + rewrite lookup_add_to_bucket, decide_True by done.
      eexists. split; [done|]. apply elem_of_app. right. by apply list_elem_of_singleton.
  - intros k b. rewrite lookup_add_to_bucket. case_decide as Hk; [|by apply Hnd].
    intros [= <-]. apply NoDup_app. split_and!.
    + destruct (lookup (toLower (Rec.last r)) tl) eqn:Hb0; [by eapply Hnd|constructor].
    + intros p Hin ->%list_elem_of_singleton.
      destruct (lookup (toLower (Rec.last r)) tl) as [b0|] eqn:Hb0;
        [|by apply elem_of_nil in Hin].
      destruct (Hl1 _ _ _ Hb0 Hin) as (r' & Hlive%live_range & _). lia.
    + apply NoDup_singleton.
Qed.

(** Soft-deleting the record an id is indexed at, and taking it out of
    both indexes. *)
Lemma kill_inv h ti tl i o ro :
  inv h ti tl → lookup i ti = Some o → heap_at h o = Some ro →
  inv (alter Rec.set_deleted (Z.to_nat o) h)
      (erase_node i ti)
      (update (remove_value o) (toLower (Rec.last ro)) tl).
Proof.
  intros [Hio Hlo Hi1 Hi2 Hl1 Hl2 Hnd] Hi Ho.
  destruct (Hi1 _ _ Hi) as (ro' & Hlo' & Hid).
  assert (ro' = ro) as -> by (destruct Hlo'; congruence).
  pose proof (live_range _ _ _ Hlo') as [Ho0 _].
  split.
  - by apply ordered_erase.
  - by apply ordered_update.
  - intros i' p Hp. destruct (decide (i' = i)) as [->|Hne].
    { by rewrite lookup_erase_eq in Hp. }
    rewrite lookup_erase_ne in Hp by done.
    destruct (Hi1 _ _ Hp) as (r & Hlive & Hidr). exists r. split; [|done].
    apply live_mark; [done|]. split; [done|]. intros ->.
    rewrite (live_inj _ _ _ _ Hlive Hlo') in Hidr. congruence.
  - intros p r [Hlive Hne]%live_mark; [|done].
    rewrite lookup_erase_ne; [by apply Hi2|done|].
    intros Heq. apply Hi2 in Hlive. congruence.
  - intros k b p Hb Hin.
    destruct (decide (k = toLower (Rec.last ro))) as [->|Hk].
    + rewrite lookup_update_eq in Hb.
      destruct (lookup (toLower (Rec.last ro)) tl) as [b0|] eqn:Hb0; simplify_eq/=.
      apply list_elem_of_filter in Hin as [Hne Hin].
      destruct (Hl1 _ _ _ Hb0 Hin) as (r & Hlive & Hkey).
      exists r. split; [|done]. by apply live_mark.
    + rewrite lookup_update_ne in Hb by done.
      destruct (Hl1 _ _ _ Hb Hin) as (r & Hlive & Hkey).
      exists r. split; [|done]. apply live_mark; [done|]. split; [done|].
      intros ->. rewrite (live_inj _ _ _ _ Hlive Hlo') in Hkey. congruence.
  - intros p r [Hlive Hne]%live_mark; [|done].
    destruct (Hl2 _ _ Hlive) as (b & Hb & Hin).
    destruct (decide (toLower (Rec.last r) = toLower (Rec.last ro))) as [Hk|Hk].
    + rewrite Hk, lookup_update_eq, <-Hk, Hb. simpl. eexists. split; [done|].
      by apply list_elem_of_filter.
    + rewrite lookup_update_ne by done. by exists b.
  - intros k b Hb.
    destruct (decide (k = toLower (Rec.last ro))) as [->|Hk].
    + rewrite lookup_update_eq in Hb.
      destruct (lookup (toLower (Rec.last ro)) tl) as [b0|] eqn:Hb0; simplify_eq/=.
      apply NoDup_filter. by eapply Hnd.
    + rewrite lookup_update_ne in Hb by done. by eapply Hnd.
Qed.

End invariant.

(** * What each operation computes *)

Section operations.
Import BST BSTFacts.

Lemma insertRecord_new e r :
  lookup (Rec.id r) (root (idIndex e)) = None →
  ∃ c1 c2,
    insertRecord e r =
      Some (int_of_size (length (heap e)),
            mkEngine (heap e ++ [r])
              (mk (insert_node (Rec.id r) (int_of_size (length (heap e))) (root (idIndex e))) c1)
              (mk (add_to_bucket (toLower (Rec.last r)) (int_of_size (length (heap e)))
                     (root (lastIndex e))) c2)).
Proof.
  intros Hnew. unfold insertRecord. rewrite !find_spec, Hnew.
  unfold add_to_bucket, insert. cbn [root comparisons].
  destruct (lookup (toLower (Rec.last r)) (root (lastIndex e))) as [b|] eqn:Hb.
  - rewrite (store_Some _ _ b) by done. simpl. eauto.
  - eauto.
Qed.

Lemma insertRecord_update e r o ro :
  lookup (Rec.id r) (root (idIndex e)) = Some o →
  heap_at (heap e) o = Some ro →
  let h1 := alter Rec.set_deleted (Z.to_nat o) (heap e) in
  let newRid := int_of_size (length (h1 ++ [r]) - 1) in
  ∃ c1 c2,
    insertRecord e r =
      Some (int_of_size (length (heap e)),
            mkEngine (h1 ++ [r])
              (mk (insert_node (Rec.id r) newRid (erase_node (Rec.id r) (root (idIndex e)))) c1)
              (mk (add_to_bucket (toLower (Rec.last r)) newRid
                     (update (remove_value o) (toLower (Rec.last ro)) (root (lastIndex e)))) c2)).
Proof.
  intros Hold Ho h1 newRid. unfold insertRecord. rewrite find_spec, Hold.
  unfold deref. cbn [root]. rewrite Hold. cbn [mbind option_bind].
  rewrite (heap_mark_Some _ _ _ Ho). cbn [mbind option_bind].
  rewrite heap_at_alter_eq, Ho. cbn [fmap option_fmap option_map mbind option_bind].
  change (Rec.last (Rec.set_deleted ro)) with (Rec.last ro).
  rewrite find_spec.
  set (ko := toLower (Rec.last ro)). set (kn := toLower (Rec.last r)).
  destruct (lookup ko (root (lastIndex e))) as [b0|] eqn:Hb0.
  - rewrite (store_Some _ _ b0) by done. cbn [mbind option_bind].
    rewrite find_spec. cbn [root comparisons].
    unfold add_to_bucket, insert, erase. cbn [root comparisons].
    fold h1. fold newRid.
    destruct (lookup kn (update (remove_value o) ko (root (lastIndex e)))) as [b|] eqn:Hb.
    + rewrite (store_Some _ _ b) by done. simpl. eauto.
    + eauto.
  - rewrite (update_absent (remove_value o) ko _ Hb0). cbn [mbind option_bind].
    rewrite find_spec. cbn [root comparisons].
    unfold add_to_bucket, insert, erase. cbn [root comparisons].
    fold h1. fold newRid.
    destruct (lookup kn (root (lastIndex e))) as [b|] eqn:Hb.
    + rewrite (store_Some _ _ b) by done. simpl. eauto.
    + eauto.
Qed.

Lemma deleteById_absent e i :
  lookup i (root (idIndex e)) = None →
  deleteById e i =
    Some (false,
          mkEngine (heap e)
            (mk (root (idIndex e))
                (comparisons (idIndex e) + find_cost i (root (idIndex e))))
            (lastIndex e)).
Proof. intros Hi. unfold deleteById. by rewrite find_spec, Hi. Qed.

Lemma deleteById_present e i p :
  ordered (root (idIndex e)) → lookup i (root (idIndex e)) = Some p →
  deleteById e i = None.
Proof.
  intros Hord Hi. unfold deleteById. rewrite find_spec, Hi.
  unfold deref, erase. cbn [root]. rewrite Hi. cbn [mbind option_bind].
  destruct (heap_mark p (heap e)) as [h1|]; [|done]. cbn [mbind option_bind].
  by rewrite lookup_erase_eq.
Qed.

Lemma findById_spec e i :
  let c := find_cost i (root (idIndex e)) in
  let e' := mkEngine (heap e) (mk (root (idIndex e)) c) (lastIndex e) in
  findById e i =
    match lookup i (root (idIndex e)) with
    | None => Some (None, c, e')
    | Some p => _ ← heap_at (heap e) p; Some (Some p, c, e')
    end.
Proof.
  intros c e'. unfold findById. rewrite find_spec.
  cbn [resetMetrics root comparisons]. rewrite Nat.add_0_l.
  destruct (lookup i (root (idIndex e))) as [p|] eqn:Hi; [|done].
  unfold deref. cbn [root]. by rewrite Hi.
Qed.

Lemma collect_live_live h p r acc :
  live h p r → collect_live h p (Some acc) = Some (acc ++ [p]).
Proof. intros [Hr Hd]. unfold collect_live. simpl. rewrite Hr. simpl. by rewrite Hd. Qed.

Lemma collect_live_all h ps acc :
  Forall (λ p, ∃ r, live h p r) ps →
  foldl (λ a rid, collect_live h rid a) (Some acc) ps = Some (acc ++ ps).
Proof.
  intros Hall. revert acc.
  induction Hall as [|p ps (r & Hlive) _ IH]; intros acc; cbn [foldl].
  - by rewrite app_nil_r.
  - rewrite (collect_live_live _ _ _ _ Hlive), IH. by rewrite <-app_assoc.
Qed.

Lemma rangeById_spec e lo hi :
  store_inv e →
  let c := range_cost lo hi (root (idIndex e)) in
  rangeById e lo hi =
    Some ((filter (in_range lo hi) (entries (root (idIndex e)))).*2, c,
          mkEngine (heap e) (mk (root (idIndex e)) c) (lastIndex e)).
Proof.
  intros Hinv c. unfold rangeById.
  rewrite rangeApply_spec by apply Hinv.
  cbn [resetMetrics root comparisons]. rewrite Nat.add_0_l.
  set (L := filter _ _).
  assert (Forall (λ p, ∃ r, live (heap e) p r) L.*2) as Hall.
  { apply Forall_fmap, Forall_forall. intros [k p] [_ Hin]%list_elem_of_filter.
    apply elem_of_entries in Hin; [|apply Hinv].
    destruct (inv_id_sound _ _ _ Hinv _ _ Hin) as (r & Hlive & _). by exists r. }
  assert (foldl (λ acc kv, collect_live (heap e) kv.2 acc) (Some []) L =
          foldl (λ a rid, collect_live (heap e) rid a) (Some []) L.*2) as ->.
  { generalize (Some (@nil Z)). clear. induction L as [|kv L IH]; intros a; simpl; auto. }
  by rewrite collect_live_all.
Qed.

Lemma prefixByLast_spec e prefix :
  store_inv e →
  let lo := toLower prefix in
  let hi := (lo ++ "{")%string in
  let c := range_cost lo hi (root (lastIndex e)) in
  prefixByLast e prefix =
    Some (concat (filter (in_range lo hi) (entries (root (lastIndex e)))).*2, c,
          mkEngine (heap e) (idIndex e) (mk (root (lastIndex e)) c)).
Proof.
  intros Hinv lo hi c. unfold prefixByLast.
  rewrite rangeApply_spec by apply Hinv.
  cbn [resetMetrics root comparisons]. rewrite Nat.add_0_l.
  fold lo. fold hi. set (L := filter _ _).
  assert (Forall (λ b, Forall (λ p, ∃ r, live (heap e) p r) b) L.*2) as Hall.
  { apply Forall_fmap, Forall_forall. intros [k b] [_ Hin]%list_elem_of_filter.
    apply elem_of_entries in Hin; [|apply Hinv].
    apply Forall_forall. intros p Hp.
    destruct (inv_last_sound _ _ _ Hinv _ _ _ Hin Hp) as (r & Hlive & _). by exists r. }
  assert (∀ acc,
    foldl (λ a kv, foldl (λ a' rid, collect_live (heap e) rid a') a kv.2) (Some acc) L =
    Some (acc ++ concat L.*2)) as ->; [|done].
  clear -Hall. induction L as [|[k b] L IH]; intros acc; simpl.
  - by rewrite app_nil_r.
  - apply Forall_cons in Hall as [Hb HL].
    rewrite collect_live_all by done. rewrite IH by done. by rewrite <-app_assoc.
Qed.

(** [insertRecord] on a well-formed store with room: it is defined, it
    returns the length of the heap before the call, the new record sits at
    that position and is indexed there, a previous holder of the id is
    flagged, and the store it leaves is well-formed when the record came
    with its flag clear. *)
Lemma insertRecord_shape e r :
  store_inv e → has_room e →
  let n := Z.of_nat (length (heap e)) in
  ∃ e', insertRecord e r = Some (n, e') ∧
        lookup (Rec.id r) (root (idIndex e')) = Some n ∧
        heap_at (heap e') n = Some r ∧
        length (heap e') = S (length (heap e)) ∧
        (∀ o, lookup (Rec.id r) (root (idIndex e)) = Some o →
              o ≠ n ∧ ∃ ro, heap_at (heap e') o = Some ro ∧ Rec.deleted ro = true) ∧
        (∀ p r', heap_at (heap e) p = Some r' →
                 heap_at (heap e') p =
                   Some (if decide (lookup (Rec.id r) (root (idIndex e)) = Some p)
                         then Rec.set_deleted r' else r')) ∧
        (Rec.deleted r = false → store_inv e').
Proof.
  intros Hinv Hroom n. unfold has_room in Hroom.
  destruct (lookup (Rec.id r) (root (idIndex e))) as [o|] eqn:Hold.
  - destruct (inv_id_sound _ _ _ Hinv _ _ Hold) as (ro & [Ho Hlo] & Hid).
    destruct (insertRecord_update e r o ro Hold Ho) as (c1 & c2 & ->).
    rewrite length_app, length_alter. simpl.
    replace (length (heap e) + 1 - 1)%nat with (length (heap e)) by lia.
    rewrite int_of_size_fits by done. fold n.
    pose proof (heap_at_range _ _ _ Ho) as Hrange.
    eexists. split; [done|]. simpl. split_and!.
    + apply lookup_insert_eq.
    + apply heap_at_snoc. right. by rewrite length_alter.
    + rewrite length_app, length_alter. simpl. lia.
    + intros ? [= <-]. split; [lia|]. exists (Rec.set_deleted ro). split; [|done].
      apply heap_at_snoc. left. by rewrite heap_at_alter_eq, Ho.
    + intros p r' Hp. apply heap_at_snoc. left. case_decide as Hop.
      * injection Hop as ->. by rewrite heap_at_alter_eq, Hp.
      * rewrite heap_at_alter_ne; [done|lia|congruence].
    + intros Hdel. unfold store_inv, n. simpl.
      rewrite <-(length_alter Rec.set_deleted (heap e) (Z.to_nat o)).
      apply add_inv; [by apply kill_inv| |done].
      apply lookup_erase_eq, Hinv.
  - destruct (insertRecord_new e r Hold) as (c1 & c2 & ->).
    rewrite int_of_size_fits by done. fold n.
    eexists. split; [done|]. simpl. split_and!.
    + apply lookup_insert_eq.
    + apply heap_at_snoc. by right.
    + rewrite length_app. simpl. lia.
    + done.
    + intros p r' Hp. apply heap_at_snoc. by left.
    + intros Hdel. unfold store_inv. simpl. by apply add_inv.
Qed.

Lemma insertRecord_inv e r :
  store_inv e → has_room e → Rec.deleted r = false →
  ∃ e', insertRecord e r = Some (Z.of_nat (length (heap e)), e') ∧ store_inv e'.
Proof.
  intros Hinv Hroom Hdel.
  destruct (insertRecord_shape e r Hinv Hroom) as (e' & He' & _ & _ & _ & _ & _ & Hinv').
  eauto.
Qed.

Lemma newEngine_inv : store_inv newEngine.
Proof.
  split; simpl; try done.
  - intros p r [Hr _]. unfold heap_at in Hr. by case_decide.
  - intros p r [Hr _]. unfold heap_at in Hr. by case_decide.
Qed.

Lemma step_inv e e' : step e e' → store_inv e → store_inv e'.
Proof.
  intros Hstep Hinv. destruct Hstep as
    [e r v e' Hdel Hroom Hins|e i b e' Hd|e i res c e' Hf|e lo hi res c e' Hr|e p res c e' Hp].
  - destruct (insertRecord_inv e r Hinv Hroom Hdel) as (e2 & He2 & Hinv2). congruence.
  - destruct (lookup i (root (idIndex e))) as [p|] eqn:Hi.
    + rewrite (deleteById_present e i p) in Hd; [done|apply Hinv|done].
    + rewrite deleteById_absent in Hd by done. by simplify_eq.
  - rewrite findById_spec in Hf.
    destruct (lookup i (root (idIndex e))); simplify_option_eq; done.
  - rewrite rangeById_spec in Hr by done. by simplify_eq.
  - rewrite prefixByLast_spec in Hp by done. by simplify_eq.
Qed.

Lemma steps_inv e e' : rtc step e e' → store_inv e → store_inv e'.
Proof. induction 1; eauto using step_inv. Qed.

Lemma reachable_inv e : reachable e → store_inv e.
Proof. intros Hr. eapply steps_inv; [exact Hr|apply newEngine_inv]. Qed.

(** A position that is flagged stays flagged, whatever is done next. *)
Lemma step_deleted e e' p r :
  step e e' → store_inv e →
  heap_at (heap e) p = Some r → Rec.deleted r = true →
  ∃ r', heap_at (heap e') p = Some r' ∧ Rec.deleted r' = true.
Proof.
  intros Hstep Hinv Hp Hdel. destruct Hstep as
    [e r0 v e' Hdel0 Hroom Hins|e i b e' Hd|e i res c e' Hf|e lo hi res c e' Hr|e q res c e' Hq].
  - destruct (insertRecord_shape e r0 Hinv Hroom) as (e2 & He2 & _ & _ & _ & _ & Hkeep & _).
    assert (e2 = e') as -> by congruence.
    rewrite (Hkeep _ _ Hp). eexists. split; [done|]. by case_decide.
  - destruct (lookup i (root (idIndex e))) as [o|] eqn:Hi.
    + rewrite (deleteById_present e i o) in Hd; [done|apply Hinv|done].
    + rewrite deleteById_absent in Hd by done. simplify_eq. eauto.
  - rewrite findById_spec in Hf.
    destruct (lookup i (root (idIndex e))); simplify_option_eq; eauto.
  - rewrite rangeById_spec in Hr by done. simplify_eq. eauto.
  - rewrite prefixByLast_spec in Hq by done. simplify_eq. eauto.
Qed.

Lemma steps_deleted e e' p r :
  rtc step e e' → store_inv e →
  heap_at (heap e) p = Some r → Rec.deleted r = true →
  ∃ r', heap_at (heap e') p = Some r' ∧ Rec.deleted r' = true.
Proof.
  intros Hsteps. revert r. induction Hsteps as [e|e e1 e2 Hstep _ IH]; intros r Hinv Hp Hdel.
  - eauto.
  - destruct (step_deleted _ _ _ _ Hstep Hinv Hp Hdel) as (r1 & Hp1 & Hdel1).
    eapply IH; eauto using step_inv.
Qed.

(** A flagged position is in no query result. *)
Lemma rangeById_live e lo hi ps c e' p :
  store_inv e → rangeById e lo hi = Some (ps, c, e') → p ∈ ps →
  ∃ r, live (heap e) p r.
Proof.
  intros Hinv Hr Hp. rewrite rangeById_spec in Hr by done. simplify_eq.
  apply list_elem_of_fmap in Hp as ([k p'] & -> & [_ Hin]%list_elem_of_filter).
  apply elem_of_entries in Hin; [|apply Hinv].
  destruct (inv_id_sound _ _ _ Hinv _ _ Hin) as (r & Hlive & _). eauto.
Qed.

Lemma prefixByLast_live e q ps c e' p :
  store_inv e → prefixByLast e q = Some (ps, c, e') → p ∈ ps →
  ∃ r, live (heap e) p r.
Proof.
  intros Hinv Hq Hp. rewrite prefixByLast_spec in Hq by done. simplify_eq.
  apply list_elem_of_In, in_concat in Hp as (b & Hb%list_elem_of_In & Hp%list_elem_of_In).
  apply list_elem_of_fmap in Hb as ([k b'] & -> & [_ Hin]%list_elem_of_filter).
  apply elem_of_entries in Hin; [|apply Hinv].
  destruct (inv_last_sound _ _ _ Hinv _ _ _ Hin Hp) as (r & Hlive & _). eauto.
Qed.

(** Inserting a list of records with clear flags keeps a store reachable. *)
Lemma insert_all_reachable rs e e' :
  insert_all rs e = Some e' → reachable e →
  Forall (λ r, Rec.deleted r = false) rs →
  Z.of_nat (length (heap e) + length rs) ≤ INT_MAX + 1 →
  reachable e'.
Proof.
  unfold insert_all. revert e. induction rs as [|r rs IH]; intros e Hall Hreach Hflags Hlen.
  - simpl in Hall. by simplify_eq.
  - apply Forall_cons in Hflags as [Hflag Hflags]. simpl in Hall, Hlen.
    pose proof (reachable_inv _ Hreach) as Hinv.
    assert (has_room e) as Hroom by (unfold has_room; lia).
    destruct (insertRecord_shape e r Hinv Hroom) as (e1 & He1 & _ & _ & Hlen1 & _).
    rewrite He1 in Hall. simpl in Hall.
    eapply (IH e1); [done| |done|lia].
    eapply rtc_r; [exact Hreach|]. by eapply step_insert.
Qed.

End operations.

(** * Facts about names and the prefix range *)

Module StrFacts.
Local Open Scope string_scope.

Lemma ascii_compare_refl (a : ascii) : Ascii.compare a a = Eq.
Proof. apply N.compare_refl. Qed.

Lemma ascii_eqb_compare (a c : ascii) :
  Ascii.eqb a c = match Ascii.compare a c with Eq => true | _ => false end.
Proof.
  destruct (Ascii.eqb_spec a c) as [->|Hne].
  - by rewrite ascii_compare_refl.
  - destruct (Ascii.compare a c) eqn:Hc; [|done..].
    by apply Ascii.compare_eq_iff in Hc.
Qed.

Lemma string_le (a b : string) :
  key_le a b = match String.compare b a with Lt => false | _ => true end.
Proof. unfold key_le. simpl. unfold String.ltb. by destruct (String.compare b a). Qed.

Lemma compare_empty_r (k : string) : String.compare k "" ≠ Lt.
Proof. by destruct k. Qed.

(** The closed range [p, p ++ "{"] holds exactly the continuations of [p]
    described by [continues_below]. *)
Lemma in_range_continues (p k : string) :
  key_le p k && key_le k (p ++ "{") = continues_below p k.
Proof.
  rewrite !string_le. revert k. induction p as [|a p IH]; intros [|c k]; simpl; try done.
  - unfold below_sentinel. rewrite (Ascii.compare_antisym "{" c), ascii_eqb_compare.
    unfold Ascii.compare. change (N_of_ascii "{") with 123%N.
    destruct (N.ltb_spec (N_of_ascii c) 123) as [Hlt|Hge].
    + apply N.compare_lt_iff in Hlt. by rewrite Hlt.
    + destruct (N.compare_spec (N_of_ascii c) 123) as [Heq|Hlt|Hgt]; simpl; [|lia|done].
      by destruct k.
  - rewrite ascii_eqb_compare, (Ascii.compare_antisym a c).
    destruct (Ascii.compare c a) eqn:Hac; simpl; [apply IH|done|done].
Qed.

Lemma continues_prefix (p k : string) :
  continues_below p k = true → String.prefix p k = true.
Proof.
  revert k. induction p as [|a p IH]; intros [|c k]; simpl; try done.
  intros [Hac Hk]%andb_true_iff. apply Ascii.eqb_eq in Hac as ->.
  destruct (ascii_dec c c); [auto|done].
Qed.

Lemma prefix_continues (p k : string) :
  String.prefix p k = true → all_chars below_sentinel k = true →
  continues_below p k = true.
Proof.
  revert k. induction p as [|a p IH]; intros [|c k]; simpl; try done.
  - intros _ [Hc _]%andb_true_iff. by rewrite Hc.
  - destruct (ascii_dec a c) as [->|]; [|done].
    intros Hp [_ Hk]%andb_true_iff. rewrite Ascii.eqb_refl. simpl. auto.
Qed.

Lemma below_sentinel_ltb (k : string) :
  all_chars below_sentinel k = true → String.ltb k "{" = true.
Proof.
  destruct k as [|c k]; [done|]. simpl. intros [Hc _]%andb_true_iff.
  unfold String.ltb. simpl. unfold below_sentinel in Hc.
  apply N.ltb_lt, N.compare_lt_iff in Hc.
  unfold Ascii.compare. change (N_of_ascii "{") with 123%N. by rewrite Hc.
Qed.

Lemma ltb_continues_empty (k : string) :
  String.ltb k "{" = true → continues_below "" k = true.
Proof.
  destruct k as [|c k]; [done|]. unfold String.ltb. simpl.
  unfold below_sentinel, Ascii.compare. change (N_of_ascii "{") with 123%N.
  destruct (N.compare_spec (N_of_ascii c) 123) as [Heq|Hlt|Hgt]; [|intros _|done].
  - by destruct k.
  - apply N.ltb_lt in Hlt. by rewrite Hlt.
Qed.

Lemma tolower_letter (c : ascii) :
  is_letter c = true → below_sentinel (tolower c) = true.
Proof. destruct c as [[] [] [] [] [] [] [] []]; by vm_compute. Qed.

Lemma toLower_letters (s : string) :
  all_chars is_letter s = true → all_chars below_sentinel (toLower s) = true.
Proof.
  induction s as [|c s IH]; simpl; [done|].
  intros [Hc Hs]%andb_true_iff. by rewrite tolower_letter, IH.
Qed.

End StrFacts.

(** * Facts about query results *)

Section results.
Import BST BSTFacts.

Lemma elem_of_concat {A} (x : A) (ls : list (list A)) :
  x ∈ concat ls ↔ ∃ l, l ∈ ls ∧ x ∈ l.
Proof.
  induction ls as [|l ls IH]; simpl.
  - split; [by intros ?%elem_of_nil|by intros (? & ?%elem_of_nil & _)].
  - rewrite elem_of_app, IH. split.
    + intros [Hx|(l' & Hl' & Hx)]; [exists l|exists l']; split; try done.
      * by left.
      * by right.
    + intros (l' & [->|Hl']%elem_of_cons & Hx); [by left|right; eauto].
Qed.

Lemma StronglySorted_filter {A} (R : relation A) (P : A → Prop)
    `{∀ x, Decision (P x)} (l : list A) :
  StronglySorted R l → StronglySorted R (filter P l).
Proof.
  induction 1 as [|x l Hl IH Hx]; [constructor|].
  rewrite filter_cons. case_decide; [|done].
  constructor; [done|]. apply Forall_forall. intros y [_ Hy]%list_elem_of_filter.
  by apply (proj1 (Forall_forall _ _) Hx).
Qed.

Lemma in_range_Z (lo hi k v : Z) : in_range lo hi (k, v) ↔ lo ≤ k ≤ hi.
Proof.
  unfold in_range, key_le. simpl.
  rewrite andb_true_iff, !negb_true_iff, !Z.ltb_ge. lia.
Qed.

(** Entries sorted by id that point at live records of these ids: the
    positions are pairwise distinct and their records are sorted by id. *)
Lemma sorted_positions h (L : list (Z * Z)) :
  StronglySorted (λ a b, key_lt a.1 b.1 = true) L →
  Forall (λ kv, ∃ r, live h kv.2 r ∧ Rec.id r = kv.1) L →
  NoDup L.*2 ∧
  ∃ rs, Forall2 (λ p r, heap_at h p = Some r) L.*2 rs ∧
        Forall2 (λ kv r, Rec.id r = kv.1) L rs ∧
        StronglySorted (λ a b, Rec.id a < Rec.id b) rs.
Proof.
  induction 1 as [|[k p] L HL IH Hk]; intros Hall.
  - split; [constructor|]. exists []. split_and!; constructor.
  - apply Forall_cons in Hall as [(r & Hlive & Hid) Hall].
    destruct (IH Hall) as (Hnd & rs & Hrs & Hids & Hsorted).
    simpl in Hid. split.
    + simpl. apply NoDup_cons. split; [|done].
      intros ([k' p'] & Heq & Hin)%list_elem_of_fmap. simpl in Heq. subst p'.
      pose proof (proj1 (Forall_forall _ _) Hk _ Hin) as Hlt.
      destruct (proj1 (Forall_forall _ _) Hall _ Hin) as (r' & Hlive' & Hid').
      simpl in *. rewrite (live_inj _ _ _ _ Hlive' Hlive) in Hid'.
      apply Z.ltb_lt in Hlt. lia.
    + exists (r :: rs). split_and!.
      * constructor; [apply Hlive|done].
      * by constructor.
      * constructor; [done|].
        clear -Hk Hids Hid. induction Hids as [|[k' p'] r' L rs Hr' _ IH'].
        { constructor. }
        apply Forall_cons in Hk as [Hlt Hk]. simpl in *.
        constructor; [|by apply IH'].
        apply Z.ltb_lt in Hlt. lia.
Qed.

(** Buckets sorted by name whose positions are live records of that name:
    laid end to end they hold no position twice. *)
Lemma buckets_nodup h (L : list (string * list Z)) :
  StronglySorted (λ a b, key_lt a.1 b.1 = true) L →
  Forall (λ kb, NoDup kb.2 ∧
                ∀ p, p ∈ kb.2 → ∃ r, live h p r ∧ toLower (Rec.last r) = kb.1) L →
  NoDup (concat L.*2).
Proof.
  induction 1 as [|[k b] L HL IH Hk]; intros Hall; simpl; [constructor|].
  apply Forall_cons in Hall as [[Hnd Hb] Hall].
  apply NoDup_app. split_and!; [done| |by apply IH].
  intros p Hp (b' & ([k' b''] & Heq & Hin)%list_elem_of_fmap & Hp')%elem_of_concat.
  simpl in Heq. subst b''.
  pose proof (proj1 (Forall_forall _ _) Hk _ Hin) as Hlt.
  destruct (proj1 (Forall_forall _ _) Hall _ Hin) as [_ Hb'].
  destruct (Hb _ Hp) as (r & Hlive & Hkey).
  destruct (Hb' _ Hp') as (r' & Hlive' & Hkey').
  simpl in *. rewrite (live_inj _ _ _ _ Hlive' Hlive) in Hkey'.
  pose proof (key_lt_ne (K:=string) k k' Hlt). congruence.
Qed.

Lemma rangeById_elem e lo hi p :
  store_inv e →
  p ∈ (filter (in_range lo hi) (entries (root (idIndex e)))).*2 ↔
    ∃ r, live (heap e) p r ∧ lo ≤ Rec.id r ≤ hi.
Proof.
  intros Hinv. rewrite list_elem_of_fmap. split.
  - intros ([k p'] & -> & [Hr Hin]%list_elem_of_filter). simpl.
    apply in_range_Z in Hr. apply elem_of_entries in Hin; [|apply Hinv].
    destruct (inv_id_sound _ _ _ Hinv _ _ Hin) as (r & Hlive & <-). eauto.
  - intros (r & Hlive & Hr). exists (Rec.id r, p). split; [done|].
    apply list_elem_of_filter. split; [by apply in_range_Z|].
    apply elem_of_entries; [apply Hinv|]. by apply (inv_id_complete _ _ _ Hinv).
Qed.

Lemma prefixByLast_elem e lo hi p :
  store_inv e →
  p ∈ concat (filter (in_range lo hi) (entries (root (lastIndex e)))).*2 ↔
    ∃ r, live (heap e) p r ∧
         key_le lo (toLower (Rec.last r)) && key_le (toLower (Rec.last r)) hi = true.
Proof.
  intros Hinv. rewrite elem_of_concat. split.
  - intros (b & ([k b'] & -> & [Hr Hin]%list_elem_of_filter)%list_elem_of_fmap & Hp).
    simpl in Hp. apply elem_of_entries in Hin; [|apply Hinv].
    destruct (inv_last_sound _ _ _ Hinv _ _ _ Hin Hp) as (r & Hlive & <-). eauto.
  - intros (r & Hlive & Hr).
    destruct (inv_last_complete _ _ _ Hinv _ _ Hlive) as (b & Hb & Hp).
    exists b. split; [|done]. apply list_elem_of_fmap.
    exists (toLower (Rec.last r), b). split; [done|].
    apply list_elem_of_filter. split; [done|].
    apply elem_of_entries; [apply Hinv|done].
Qed.

Lemma with_counters_inv c1 c2 e : store_inv e → store_inv (with_counters c1 c2 e).
Proof. done. Qed.

End results.

(** * The sample stores are well-formed *)

Ltac sample_reachable rs :=
  eapply (insert_all_reachable rs newEngine);
  [by vm_compute|apply rtc_refl|repeat constructor|by vm_compute].

Lemma sample_store_inv : store_inv sample_store.
Proof.
  apply reachable_inv.
  sample_reachable [sample_record 10 "Lee"; sample_record 5 "Kim";
                    sample_record 20 "Kim"; sample_record 1 "Park"].
Qed.

Lemma single_store_inv : store_inv single_store.
Proof. apply reachable_inv. sample_reachable [sample_record 7 "Kim"]. Qed.

Lemma three_store_inv : store_inv three_store.
Proof.
  apply reachable_inv.
  sample_reachable [sample_record 2 "Bo"; sample_record 1 "Al"; sample_record 3 "Cy"].
Qed.

Lemma munoz_store_inv : store_inv munoz_store.
Proof. apply reachable_inv. sample_reachable [sample_record 4 munoz]. Qed.

(** The concrete scenario of the spec: [rangeById 1 10] returns the records
    of ids 1, 5, 10 in that order (positions 3, 1, 0), and [prefixByLast "ki"]
    the two records named Kim. *)
Example scenario_range :
  (x ← rangeById sample_store 1 10; Some x.1.1) = Some [3; 1; 0].
Proof. by vm_compute. Qed.

Example scenario_prefix :
  (x ← prefixByLast sample_store "ki"; Some x.1.1) = Some [1; 2].
Proof. by vm_compute. Qed.

(** * The claims of the specification *)

Section claims.
Import BST BSTFacts.

(** ** C1: the value returned by [insertRecord] *)

(** C1, counterexample. The claim says that on the update path the returned
    position is the old occupant's and is not the new record's. In the store
    that holds id 7 at position 0, inserting another record with id 7
    returns 1: not the old position, and the position of the new record. *)
Lemma insertRecord_update_position_counterexample :
  ∃ old v e',
    lookup 7 (root (idIndex single_store)) = Some old ∧
    insertRecord single_store (sample_record 7 "Lee") = Some (v, e') ∧
    v ≠ old ∧
    record_at e' v = Some (sample_record 7 "Lee").
Proof. exists 0, 1. eexists. split_and!; [by vm_compute|by vm_compute|done|by vm_compute]. Qed.

(** C1, as amended. On both paths [insertRecord] returns the size the heap
    had before the append. That value is the position of the record just
    inserted, at which the primary index now holds its id; on the update
    path it differs from the position of the old occupant, which is
    flagged as deleted. *)
Theorem insertRecord_returns_new_position e r :
  store_inv e → has_room e →
  ∃ e', insertRecord e r = Some (Z.of_nat (length (heap e)), e') ∧
        record_at e' (Z.of_nat (length (heap e))) = Some r ∧
        lookup (Rec.id r) (root (idIndex e')) = Some (Z.of_nat (length (heap e))) ∧
        ∀ old, lookup (Rec.id r) (root (idIndex e)) = Some old →
               old ≠ Z.of_nat (length (heap e)) ∧
               ∃ ro, record_at e' old = Some ro ∧ Rec.deleted ro = true.
Proof.
  intros Hinv Hroom.
  destruct (insertRecord_shape e r Hinv Hroom)
    as (e' & He' & Hidx & Hat & _ & Hold & _).
  exists e'. by split_and!.
Qed.

Lemma insertRecord_returns_new_position_witness :
  store_inv single_store ∧ has_room single_store ∧
  ∃ e', insertRecord single_store (sample_record 7 "Lee") = Some (1, e') ∧
        record_at e' 1 = Some (sample_record 7 "Lee").
Proof.
  split; [apply single_store_inv|]. split; [by vm_compute|].
  destruct (insertRecord_returns_new_position single_store (sample_record 7 "Lee")
              single_store_inv) as (e' & He' & Hat & _); [by vm_compute|].
  exists e'. split; [exact He'|exact Hat].
Defined.

(** ** C2: the invariants after every operation *)

(** C2, the code at the failing input. In the store built by inserting ids
    2, 1, 3, [deleteById 2] finds the node of id 2, flags heap position 0,
    erases the node, and then reads through the pointer it got from [find]:
    the call has no defined outcome, so nothing is established about the
    two indexes after it. *)
Theorem deleteById_two_children_undefined : deleteById three_store 2 = None.
Proof. by vm_compute. Qed.

(** ** C3: [rangeById] *)



(** ** C4: [prefixByLast] *)

(** What [prefixByLast] returns on a well-formed store: the live records
    whose lower-cased last name lies in the closed key range from the
    lower-cased prefix to the lower-cased prefix followed by ['{'], none of
    them twice. *)
Lemma prefixByLast_exact e q :
  store_inv e →
  ∃ ps c e', prefixByLast e q = Some (ps, c, e') ∧ NoDup ps ∧
    ∀ p, p ∈ ps ↔
         ∃ r, live (heap e) p r ∧
              continues_below (toLower q) (toLower (Rec.last r)) = true.
Proof.
  intros Hinv. rewrite prefixByLast_spec by done.
  do 3 eexists. split; [done|]. split.
  - apply (buckets_nodup (heap e)).
    + apply StronglySorted_filter, entries_sorted, Hinv.
    + apply Forall_forall. intros [k b] [_ Hin]%list_elem_of_filter.
      apply elem_of_entries in Hin; [|apply Hinv]. split.
      * by apply (inv_last_nodup _ _ _ Hinv k).
      * intros p Hp. by apply (inv_last_sound _ _ _ Hinv k b).
  - intros p. rewrite prefixByLast_elem by done.
    by setoid_rewrite StrFacts.in_range_continues.
Qed.

(** Two records inserted one after the other under different ids are both
    live afterwards. *)
Lemma insert_two_live e r1 r2 p1 e1 p2 e2 :
  store_inv e → Z.of_nat (length (heap e)) < INT_MAX →
  Rec.deleted r1 = false → Rec.deleted r2 = false → Rec.id r1 ≠ Rec.id r2 →
  insertRecord e r1 = Some (p1, e1) → insertRecord e1 r2 = Some (p2, e2) →
  store_inv e2 ∧ live (heap e2) p1 r1 ∧ live (heap e2) p2 r2.
Proof.
  intros Hinv Hlen Hd1 Hd2 Hne H1 H2.
  assert (has_room e) as Hroom by (unfold has_room; lia).
  destruct (insertRecord_shape e r1 Hinv Hroom)
    as (e1' & He1 & Hidx1 & Hat1 & Hlen1 & _ & _ & Hinv1).
  rewrite He1 in H1. injection H1 as <- <-. specialize (Hinv1 Hd1).
  assert (has_room e1') as Hroom1 by (unfold has_room; lia).
  destruct (insertRecord_shape e1' r2 Hinv1 Hroom1)
    as (e2' & He2 & Hidx2 & Hat2 & _ & _ & Hkeep & Hinv2).
  rewrite He2 in H2. injection H2 as <- <-. specialize (Hinv2 Hd2).
  split; [done|]. split; [|done]. split; [|done].
  rewrite (Hkeep _ _ Hat1). case_decide as Hsame; [|done].
  destruct (inv_id_sound _ _ _ Hinv1 _ _ Hsame) as (r & [Hr _] & Hid). congruence.
Qed.

(** Outside the condition on name characters. The store holds one live
    record whose last name is "Muñoz" (UTF-8). The lower-cased name begins
    with "mu", yet [prefixByLast "mu"] returns nothing: the byte after "mu"
    is above ['{']. *)
Lemma prefixByLast_high_byte_missed :
  ∃ r c e',
    live (heap munoz_store) 0 r ∧
    String.prefix (toLower "mu") (toLower (Rec.last r)) = true ∧
    prefixByLast munoz_store "mu" = Some ([], c, e').
Proof. do 3 eexists. split_and!; by vm_compute. Qed.

(** The general form, for names of any bytes. On a well-formed store
    [prefixByLast q] returns, none of
    them twice, exactly the live records whose lower-cased last name is the
    lower-cased [q] followed by nothing, by a continuation whose first byte
    sorts before ['{'], or by ["{"] alone: the keys of the closed range from
    [toLower q] to [toLower q ++ "{"]. Every returned name begins with the
    lower-cased [q], and every live record whose lower-cased name begins
    with it and has only bytes before ['{'] is returned. After inserting
    "Smith" and "SMITHSON" under different ids, "smi" and "smith" return
    both records and "smithz" returns neither. *)
Theorem prefixByLast_correct e q :
  store_inv e →
  (∃ ps c e', prefixByLast e q = Some (ps, c, e') ∧ NoDup ps ∧
     (∀ p, p ∈ ps ↔
           ∃ r, live (heap e) p r ∧
                continues_below (toLower q) (toLower (Rec.last r)) = true) ∧
     (∀ p, p ∈ ps →
           ∃ r, live (heap e) p r ∧
                String.prefix (toLower q) (toLower (Rec.last r)) = true) ∧
     (∀ p r, live (heap e) p r →
             String.prefix (toLower q) (toLower (Rec.last r)) = true →
             all_chars below_sentinel (toLower (Rec.last r)) = true →
             p ∈ ps)) ∧
  (∀ r1 r2 p1 e1 p2 e2,
     Z.of_nat (length (heap e)) < INT_MAX →
     Rec.deleted r1 = false → Rec.deleted r2 = false → Rec.id r1 ≠ Rec.id r2 →
     Rec.last r1 = "Smith"%string → Rec.last r2 = "SMITHSON"%string →
     insertRecord e r1 = Some (p1, e1) → insertRecord e1 r2 = Some (p2, e2) →
     (∃ ps c e', prefixByLast e2 "smi" = Some (ps, c, e') ∧ p1 ∈ ps ∧ p2 ∈ ps) ∧
     (∃ ps c e', prefixByLast e2 "smith" = Some (ps, c, e') ∧ p1 ∈ ps ∧ p2 ∈ ps) ∧
     (∃ ps c e', prefixByLast e2 "smithz" = Some (ps, c, e') ∧ (p1 ∉ ps) ∧ (p2 ∉ ps))).
Proof.
  intros Hinv. split.
  - destruct (prefixByLast_exact e q Hinv) as (ps & c & e' & Hq & Hnd & Hps).
    exists ps, c, e'. split_and!; [done|done|done| |].
    + intros p (r & Hlive & Hc)%Hps. exists r. split; [done|].
      by apply StrFacts.continues_prefix.
    + intros p r Hlive Hpre Hchars. apply Hps. exists r. split; [done|].
      by apply StrFacts.prefix_continues.
  - intros r1 r2 p1 e1 p2 e2 Hlen Hd1 Hd2 Hne Hn1 Hn2 H1 H2.
    destruct (insert_two_live e r1 r2 p1 e1 p2 e2) as (Hinv2 & Hl1 & Hl2); try done.
    split_and!.
    + destruct (prefixByLast_exact e2 "smi" Hinv2) as (ps & c & e' & Hq & _ & Hps).
      exists ps, c, e'. split; [done|]. split; apply Hps.
      * exists r1. split; [done|]. by rewrite Hn1.
      * exists r2. split; [done|]. by rewrite Hn2.
    + destruct (prefixByLast_exact e2 "smith" Hinv2) as (ps & c & e' & Hq & _ & Hps).
      exists ps, c, e'. split; [done|]. split; apply Hps.
      * exists r1. split; [done|]. by rewrite Hn1.
      * exists r2. split; [done|]. by rewrite Hn2.
    + destruct (prefixByLast_exact e2 "smithz" Hinv2) as (ps & c & e' & Hq & _ & Hps).
      exists ps, c, e'. split; [done|].
      split; intros (r & Hlive & Hc)%Hps.
      * rewrite (live_inj _ _ _ _ Hlive Hl1), Hn1 in Hc. by vm_compute in Hc.
      * rewrite (live_inj _ _ _ _ Hlive Hl2), Hn2 in Hc. by vm_compute in Hc.
Qed.

Lemma prefixByLast_correct_witness :
  store_inv sample_store ∧
  ∃ ps c e', prefixByLast sample_store "ki" = Some (ps, c, e') ∧ NoDup ps.
Proof.
  split; [apply sample_store_inv|].
  destruct (prefixByLast_correct sample_store "ki" sample_store_inv)
    as [(ps & c & e' & Hq & Hnd & _) _].
  by exists ps, c, e'.
Defined.





(** ** C5: insert, then find *)

(** C5. After [insertRecord r] on a well-formed store with room,
    [findById (id r)] returns a pointer to a record equal to [r]. When a
    live record held the id before and [r] came with its flag clear, the
    position of that record is in no result of [rangeById] or
    [prefixByLast] after any further operations, and these queries have a
    result. *)
Theorem insert_then_find e r :
  store_inv e → has_room e →
  ∃ v e', insertRecord e r = Some (v, e') ∧
    (∃ p c e'', findById e' (Rec.id r) = Some (Some p, c, e'') ∧
                record_at e'' p = Some r) ∧
    (Rec.deleted r = false →
     ∀ old ro, live (heap e) old ro → Rec.id ro = Rec.id r →
     ∀ e2, rtc step e' e2 →
       (∀ lo hi, ∃ ps c e3, rangeById e2 lo hi = Some (ps, c, e3) ∧ old ∉ ps) ∧
       (∀ q, ∃ ps c e3, prefixByLast e2 q = Some (ps, c, e3) ∧ old ∉ ps)).
Proof.
  intros Hinv Hroom.
  destruct (insertRecord_shape e r Hinv Hroom)
    as (e' & He' & Hidx & Hat & _ & Hold & _ & Hinv').
  eexists _, e'. split; [exact He'|]. split.
  - rewrite findById_spec, Hidx, Hat. simpl. by do 3 eexists.
  - intros Hdel old ro Hlive Hid e2 Hsteps. specialize (Hinv' Hdel).
    rewrite <-Hid in Hold.
    destruct (Hold old (inv_id_complete _ _ _ Hinv _ _ Hlive))
      as (_ & ro' & Hro' & Hdel').
    destruct (steps_deleted _ _ _ _ Hsteps Hinv' Hro' Hdel') as (r2 & Hr2 & Hdel2).
    pose proof (steps_inv _ _ Hsteps Hinv') as Hinv2.
    split.
    + intros lo hi. pose proof (rangeById_spec e2 lo hi Hinv2) as Hq.
      do 3 eexists. split; [exact Hq|].
      intros Hin. destruct (rangeById_live _ _ _ _ _ _ _ Hinv2 Hq Hin) as (r3 & Hr3 & Hd3).
      congruence.
    + intros q. pose proof (prefixByLast_spec e2 q Hinv2) as Hq.
      do 3 eexists. split; [exact Hq|].
      intros Hin. destruct (prefixByLast_live _ _ _ _ _ _ Hinv2 Hq Hin) as (r3 & Hr3 & Hd3).
      congruence.
Qed.

Lemma insert_then_find_witness :
  store_inv sample_store ∧ has_room sample_store ∧
  ∃ v e' p c e'',
    insertRecord sample_store (sample_record 5 "Lee") = Some (v, e') ∧
    findById e' 5 = Some (Some p, c, e'') ∧
    record_at e'' p = Some (sample_record 5 "Lee").
Proof.
  split; [apply sample_store_inv|]. split; [by vm_compute|].
  destruct (insert_then_find sample_store (sample_record 5 "Lee") sample_store_inv)
    as (v & e' & He' & (p & c & e'' & Hf & Hr) & _); [by vm_compute|].
  by exists v, e', p, c, e''.
Defined.

(** ** C6: after a successful [deleteById] *)



(** ** C7: the two outcomes of [deleteById] *)

(** The failed lookup is counted. In the store that holds only id 7,
    [deleteById 8] returns false and the comparison counter of the primary
    index has gone from 0 to 1: [deleteById] calls [find] without
    [resetMetrics], and the counter accumulates until the next reset. *)
Lemma deleteById_absent_counter :
  ∃ e', deleteById single_store 8 = Some (false, e') ∧
        comparisons (idIndex single_store) = 0%nat ∧
        comparisons (idIndex e') = 1%nat ∧
        idIndex e' ≠ idIndex single_store.
Proof. eexists. split_and!; [by vm_compute|done|done|by vm_compute]. Qed.

(** The absent id in full. When no live record holds the id, [deleteById]
    returns false; the heap, the entries of the primary index and the whole
    secondary index are as before, and the comparison counter of the
    primary index has grown by the comparisons of the failed lookup. *)
Theorem deleteById_absent_unchanged e i :
  store_inv e → (∀ p r, live (heap e) p r → Rec.id r ≠ i) →
  ∃ e', deleteById e i = Some (false, e') ∧
        heap e' = heap e ∧
        root (idIndex e') = root (idIndex e) ∧
        lastIndex e' = lastIndex e ∧
        comparisons (idIndex e') =
          (comparisons (idIndex e) + find_cost i (root (idIndex e)))%nat.
Proof.
  intros Hinv Hnone.
  assert (lookup i (root (idIndex e)) = None) as Hi.
  { destruct (lookup i (root (idIndex e))) as [p|] eqn:Hp; [|done].
    destruct (inv_id_sound _ _ _ Hinv _ _ Hp) as (r & Hlive & Hid).
    by destruct (Hnone _ _ Hlive). }
  rewrite deleteById_absent by done. by eexists.
Qed.

Lemma deleteById_absent_unchanged_witness :
  store_inv sample_store ∧
  (∀ p r, live (heap sample_store) p r → Rec.id r ≠ 7) ∧
  ∃ e', deleteById sample_store 7 = Some (false, e') ∧ heap e' = heap sample_store.
Proof.
  assert (∀ p r, live (heap sample_store) p r → Rec.id r ≠ 7) as Hnone.
  { intros p r Hlive Hid.
    pose proof (inv_id_complete _ _ _ sample_store_inv _ _ Hlive) as Hp.
    rewrite Hid in Hp. by vm_compute in Hp. }
  split; [apply sample_store_inv|]. split; [exact Hnone|].
  destruct (deleteById_absent_unchanged sample_store 7 sample_store_inv Hnone)
    as (e' & He' & Hheap & _).
  by exists e'.
Defined.

(** C7, the code on both halves of the claim. On a well-formed store, when
    no live record holds the id, [deleteById] returns false and leaves the
    heap, the entries of the primary index and the secondary index as they
    were. When a live record holds the id, the call flags the record and
    erases the index node, and then reads through the pointer into that
    node: it has no defined outcome, so the removal from the bucket and the
    result true are not established. *)
Theorem deleteById_false_or_undefined e i :
  store_inv e →
  ((∀ p r, live (heap e) p r → Rec.id r ≠ i) →
   ∃ e', deleteById e i = Some (false, e') ∧
         heap e' = heap e ∧
         root (idIndex e') = root (idIndex e) ∧
         lastIndex e' = lastIndex e) ∧
  (∀ p r, live (heap e) p r → Rec.id r = i → deleteById e i = None).
Proof.
  intros Hinv. split.
  - intros Hnone.
    destruct (deleteById_absent_unchanged e i Hinv Hnone)
      as (e' & He' & Hheap & Hroot & Hlast & _).
    by exists e'.
  - intros p r Hlive <-. eapply deleteById_present; [apply Hinv|].
    by apply (inv_id_complete _ _ _ Hinv).
Qed.

Lemma deleteById_false_or_undefined_witness :
  store_inv sample_store ∧
  live (heap sample_store) 1 (sample_record 5 "Kim") ∧
  deleteById sample_store 5 = None.
Proof.
  split; [apply sample_store_inv|]. split; [by vm_compute|].
  destruct (deleteById_false_or_undefined sample_store 5 sample_store_inv)
    as [_ Hlive].
  apply (Hlive 1 (sample_record 5 "Kim")); by vm_compute.
Defined.

(** ** C8: [findById] *)

(** C8. [findById] looks at the primary index and at nothing else: it
    returns the pointer to the position the index holds for the id, whatever
    the flag of the record there, and the null pointer when the index has no
    entry for the id. On a well-formed store the result is non-null exactly
    when the index has an entry for the id, and the record it points at is
    never flagged as deleted. *)
Theorem findById_correct e i :
  (∀ p r, lookup i (root (idIndex e)) = Some p → record_at e p = Some r →
          ∃ c e', findById e i = Some (Some p, c, e')) ∧
  (lookup i (root (idIndex e)) = None →
   ∃ c e', findById e i = Some (None, c, e')) ∧
  (store_inv e →
   ∃ res c e', findById e i = Some (res, c, e') ∧
     (res ≠ None ↔ ∃ p, (i, p) ∈ entries (root (idIndex e))) ∧
     ∀ p, res = Some p →
          ∃ r, record_at e' p = Some r ∧ Rec.deleted r = false ∧ Rec.id r = i).
Proof.
  rewrite findById_spec. split_and!.
  - intros p r -> Hr. unfold record_at in Hr. rewrite Hr. simpl. eauto.
  - intros ->. eauto.
  - intros Hinv. destruct (lookup i (root (idIndex e))) as [p|] eqn:Hp.
    + destruct (inv_id_sound _ _ _ Hinv _ _ Hp) as (r & [Hr Hd] & Hid).
      rewrite Hr. simpl. do 3 eexists. split; [done|]. split.
      * split; [|done]. intros _. exists p. by apply elem_of_entries; [apply Hinv|].
      * intros ? [= <-]. by exists r.
    + do 3 eexists. split; [done|]. split; [|done].
      split; [done|]. intros (p & Hin). apply elem_of_entries in Hin; [|apply Hinv].
      congruence.
Qed.

Lemma findById_correct_witness :
  (store_inv sample_store ∧
   ∃ res c e', findById sample_store 20 = Some (res, c, e') ∧ res ≠ None) ∧
  (record_at stale_store 0 = Some (Rec.mk 7 "Kim" "" true) ∧
   ∃ c e', findById stale_store 7 = Some (Some 0, c, e')).
Proof.
  split.
  - split; [apply sample_store_inv|].
    destruct (findById_correct sample_store 20) as (_ & _ & Hfind).
    destruct (Hfind sample_store_inv) as (res & c & e' & Hf & Hres & _).
    exists res, c, e'. split; [done|]. apply Hres. exists 2.
    apply elem_of_entries; [apply sample_store_inv|by vm_compute].
  - split; [done|].
    destruct (findById_correct stale_store 7) as (Hany & _).
    apply (Hany 0 (Rec.mk 7 "Kim" "" true)); by vm_compute.
Defined.

(** ** C9: the comparison counter is reset by every query *)

(** C9. On a well-formed store, what [findById], [rangeById] and
    [prefixByLast] report as [cmpOut] does not depend on the values the
    counters had before the call: it is the number of comparisons of that
    one search or traversal of the tree. The second of two [findById] calls
    in a row reports the count of its own search from the root. *)
Theorem comparison_counter_reset e :
  store_inv e →
  (∀ c1 c2 i,
     cmpOut (findById (with_counters c1 c2 e) i) =
       Some (find_node i (root (idIndex e)) 0).2) ∧
  (∀ c1 c2 lo hi,
     cmpOut (rangeById (with_counters c1 c2 e) lo hi) =
       Some (range_cost lo hi (root (idIndex e)))) ∧
  (∀ c1 c2 q,
     cmpOut (prefixByLast (with_counters c1 c2 e) q) =
       Some (range_cost (toLower q) (toLower q ++ "{")%string (root (lastIndex e)))) ∧
  (∀ i1 i2 r1 n1 e1,
     findById e i1 = Some (r1, n1, e1) →
     n1 = (find_node i1 (root (idIndex e)) 0).2 ∧
     cmpOut (findById e1 i2) = Some (find_node i2 (root (idIndex e)) 0).2).
Proof.
  intros Hinv.
  assert (∀ e0 i, store_inv e0 →
    ∃ res, findById e0 i =
      Some (res, find_cost i (root (idIndex e0)),
            mkEngine (heap e0)
              (mk (root (idIndex e0)) (find_cost i (root (idIndex e0))))
              (lastIndex e0))) as Hfind.
  { intros e0 i Hinv0. rewrite findById_spec.
    destruct (lookup i (root (idIndex e0))) as [p|] eqn:Hp; [|eauto].
    destruct (inv_id_sound _ _ _ Hinv0 _ _ Hp) as (r & [Hr _] & _).
    rewrite Hr. simpl. eauto. }
  split_and!.
  - intros c1 c2 i.
    destruct (Hfind (with_counters c1 c2 e) i (with_counters_inv c1 c2 e Hinv))
      as (res & ->).
    by rewrite find_node_spec.
  - intros c1 c2 lo hi.
    by rewrite (rangeById_spec _ lo hi (with_counters_inv c1 c2 e Hinv)).
  - intros c1 c2 q.
    by rewrite (prefixByLast_spec _ q (with_counters_inv c1 c2 e Hinv)).
  - intros i1 i2 r1 n1 e1 H1.
    destruct (Hfind e i1 Hinv) as (res1 & Hres1).
    rewrite Hres1 in H1. injection H1 as <- <- <-.
    rewrite !find_node_spec. split; [done|].
    destruct (Hfind (mkEngine (heap e)
                       (mk (root (idIndex e)) (find_cost i1 (root (idIndex e))))
                       (lastIndex e)) i2 Hinv) as (res2 & ->).
    done.
Qed.

Lemma comparison_counter_reset_witness :
  store_inv sample_store ∧
  cmpOut (findById (with_counters 40 50 sample_store) 1) = Some 3%nat.
Proof.
  split; [apply sample_store_inv|].
  destruct (comparison_counter_reset sample_store sample_store_inv) as (Hfind & _).
  exact (Hfind 40%nat 50%nat 1).
Defined.

(** ** C10: the empty prefix *)

(** C10. On a well-formed store [prefixByLast ""] returns every live record
    whose lower-cased last name is below the one-character string "{"; when
    the last names of all live records are made of letters only, it returns
    exactly the live records. *)
Theorem prefixByLast_empty_prefix e :
  store_inv e →
  ∃ ps c e', prefixByLast e "" = Some (ps, c, e') ∧
    (∀ p r, live (heap e) p r →
            String.ltb (toLower (Rec.last r)) "{" = true → p ∈ ps) ∧
    ((∀ p r, live (heap e) p r → all_chars is_letter (Rec.last r) = true) →
     ∀ p, p ∈ ps ↔ ∃ r, live (heap e) p r).
Proof.
  intros Hinv.
  destruct (prefixByLast_exact e "" Hinv) as (ps & c & e' & Hq & _ & Hps).
  exists ps, c, e'. split; [done|]. split.
  - intros p r Hlive Hlt. apply Hps. exists r. split; [done|].
    by apply StrFacts.ltb_continues_empty.
  - intros Hletters p. split.
    + intros (r & Hlive & _)%Hps. by exists r.
    + intros (r & Hlive). apply Hps. exists r. split; [done|].
      apply StrFacts.ltb_continues_empty, StrFacts.below_sentinel_ltb,
        StrFacts.toLower_letters.
      by eapply Hletters.
Qed.

Lemma prefixByLast_empty_prefix_witness :
  store_inv sample_store ∧
  ∃ ps c e', prefixByLast sample_store "" = Some (ps, c, e') ∧
             ∀ p r, live (heap sample_store) p r → p ∈ ps.
Proof.
  split; [apply sample_store_inv|].
  destruct (prefixByLast_empty_prefix sample_store sample_store_inv)
    as (ps & c & e' & Hq & Hlt & _).
  exists ps, c, e'. split; [done|]. intros p r Hlive. apply (Hlt p r Hlive).
  destruct Hlive as [Hr _]. unfold heap_at in Hr. case_decide; [|done].
  destruct (Z.to_nat p) as [|[|[|[|n]]]]; simpl in Hr; simplify_eq; done.
Defined.

End claims.

(** * Further properties of the engine *)

Section further.
Import BST BSTFacts.

(** ** Shared lemmas *)

Lemma tolower_idem (c : ascii) : tolower (tolower c) = tolower c.
Proof. destruct c as [[] [] [] [] [] [] [] []]; by vm_compute. Qed.

Lemma tolower_not_upper (c : ascii) : is_upper (tolower c) = false.
Proof. destruct c as [[] [] [] [] [] [] [] []]; by vm_compute. Qed.

Lemma tolower_fixed (c : ascii) : is_upper c = false → tolower c = c.
Proof. unfold tolower, is_upper. simpl. by intros ->. Qed.

Lemma prefix_toLower (q s : string) :
  String.prefix q s = true → String.prefix (toLower q) (toLower s) = true.
Proof.
  revert s. induction q as [|a q IH]; intros [|c s]; simpl; try done.
  destruct (ascii_dec a c) as [->|]; [|done].
  intros Hq. destruct (ascii_dec (tolower c) (tolower c)); [auto|done].
Qed.

(** The two shapes of the store after [insertRecord]. *)
Lemma insertRecord_cases e r :
  store_inv e → has_room e →
  let n := Z.of_nat (length (heap e)) in
  let k := toLower (Rec.last r) in
  (lookup (Rec.id r) (root (idIndex e)) = None ∧
   ∃ c1 c2, insertRecord e r =
     Some (n, mkEngine (heap e ++ [r])
                (mk (insert_node (Rec.id r) n (root (idIndex e))) c1)
                (mk (add_to_bucket k n (root (lastIndex e))) c2))) ∨
  (∃ o ro, lookup (Rec.id r) (root (idIndex e)) = Some o ∧
           live (heap e) o ro ∧ Rec.id ro = Rec.id r ∧
   ∃ c1 c2, insertRecord e r =
     Some (n, mkEngine (alter Rec.set_deleted (Z.to_nat o) (heap e) ++ [r])
                (mk (insert_node (Rec.id r) n (erase_node (Rec.id r) (root (idIndex e)))) c1)
                (mk (add_to_bucket k n
                       (update (remove_value o) (toLower (Rec.last ro))
                          (root (lastIndex e)))) c2))).
Proof.
  intros Hinv Hroom n k. unfold has_room in Hroom.
  destruct (lookup (Rec.id r) (root (idIndex e))) as [o|] eqn:Hold.
  - right. destruct (inv_id_sound _ _ _ Hinv _ _ Hold) as (ro & Hlive & Hid).
    exists o, ro. split; [done|]. split; [done|]. split; [done|].
    destruct (insertRecord_update e r o ro Hold (proj1 Hlive)) as (c1 & c2 & ->).
    rewrite length_app, length_alter. simpl.
    replace (length (heap e) + 1 - 1)%nat with (length (heap e)) by lia.
    rewrite int_of_size_fits by done. eauto.
  - left. split; [done|].
    destruct (insertRecord_new e r Hold) as (c1 & c2 & ->).
    rewrite int_of_size_fits by done. eauto.
Qed.

(** One operation keeps every slot of the heap, up to the flag. *)
Lemma step_heap_keeps e e' :
  step e e' → store_inv e →
  (length (heap e) ≤ length (heap e'))%nat ∧
  ∀ p r, heap_at (heap e) p = Some r →
         ∃ r', heap_at (heap e') p = Some r' ∧ same_fields r r' ∧
               (Rec.deleted r = true → Rec.deleted r' = true).
Proof.
  intros Hstep Hinv.
  assert (∀ e0, heap e0 = heap e →
    (length (heap e) ≤ length (heap e0))%nat ∧
    ∀ p r, heap_at (heap e) p = Some r →
           ∃ r', heap_at (heap e0) p = Some r' ∧ same_fields r r' ∧
                 (Rec.deleted r = true → Rec.deleted r' = true)) as Hsame.
  { intros e0 ->. split; [done|]. intros p r Hp. by exists r. }
  destruct Hstep as
    [e r0 v e' Hdel0 Hroom Hins|e i b e' Hd|e i res c e' Hf|e lo hi res c e' Hr|e q res c e' Hq].
  - destruct (insertRecord_shape e r0 Hinv Hroom)
      as (e2 & He2 & _ & _ & Hlen & _ & Hkeep & _).
    assert (e2 = e') as -> by congruence.
    split; [lia|]. intros p r Hp. rewrite (Hkeep _ _ Hp).
    eexists. split; [done|]. by case_decide.
  - destruct (lookup i (root (idIndex e))) as [o|] eqn:Hi.
    + rewrite (deleteById_present e i o) in Hd; [done|apply Hinv|done].
    + rewrite deleteById_absent in Hd by done. simplify_eq. by apply Hsame.
  - rewrite findById_spec in Hf.
    destruct (lookup i (root (idIndex e))); simplify_option_eq; by apply Hsame.
  - rewrite rangeById_spec in Hr by done. simplify_eq. by apply Hsame.
  - rewrite prefixByLast_spec in Hq by done. simplify_eq. by apply Hsame.
Qed.

Lemma steps_heap_keeps e e' :
  rtc step e e' → store_inv e →
  (length (heap e) ≤ length (heap e'))%nat ∧
  ∀ p r, heap_at (heap e) p = Some r →
         ∃ r', heap_at (heap e') p = Some r' ∧ same_fields r r' ∧
               (Rec.deleted r = true → Rec.deleted r' = true).
Proof.
  induction 1 as [e|e e1 e2 Hstep _ IH]; intros Hinv.
  - split; [done|]. intros p r Hp. by exists r.
  - destruct (step_heap_keeps _ _ Hstep Hinv) as [Hlen1 Hkeep1].
    destruct (IH (step_inv _ _ Hstep Hinv)) as [Hlen2 Hkeep2].
    split; [lia|]. intros p r Hp.
    destruct (Hkeep1 _ _ Hp) as (r1 & Hp1 & (Hi1 & Hl1 & Hy1) & Hd1).
    destruct (Hkeep2 _ _ Hp1) as (r2 & Hp2 & (Hi2 & Hl2 & Hy2) & Hd2).
    exists r2. split; [done|]. split; [|auto].
    unfold same_fields. split_and!; congruence.
Qed.

Lemma range_node_empty {K V A} `{KeyOrder K} (lo hi : K) (visit : K → V → A → A)
    (t : tree K V) (a : A) (c : nat) :
  key_lt hi lo = true → (range_node lo hi visit t a c).1 = a.
Proof.
  intros Hlt. revert a c. induction t as [|l IHl k v r IHr]; intros a c; [done|].
  cbn [range_node].
  assert (key_le lo k && key_le k hi = false) as Hout.
  { destruct (key_le lo k) eqn:H1; [|done]. simpl. unfold key_le.
    by rewrite (key_lt_le_trans hi lo k Hlt H1). }
  assert ((if key_lt lo k then range_node lo hi visit l a (S c) else (a, S c)).1 = a)
    as Hl by (destruct (key_lt lo k); [apply IHl|done]).
  destruct (if key_lt lo k then range_node lo hi visit l a (S c) else (a, S c))
    as [a1 c1]. simpl in Hl. subst a1.
  destruct (key_le lo k) eqn:H1; [destruct (key_le k hi); [done|]|];
    (destruct (key_lt k hi); [apply IHr|done]).
Qed.

(** ** Case normalisation *)

(** X1. [toLower] is a normal form for ASCII case: applying it twice is
    applying it once, it keeps the length, its result holds no upper-case
    ASCII letter, and a string without upper-case ASCII letters (any other
    bytes included) is left as it is. *)
Theorem toLower_normal_form (s : string) :
  toLower (toLower s) = toLower s ∧
  String.length (toLower s) = String.length s ∧
  all_chars (λ c, negb (is_upper c)) (toLower s) = true ∧
  (all_chars (λ c, negb (is_upper c)) s = true → toLower s = s).
Proof.
  induction s as [|c s (IH1 & IH2 & IH3 & IH4)]; simpl; [done|].
  rewrite tolower_idem, IH1, IH2, tolower_not_upper, IH3. split_and!; try done.
  intros [Hc Hs]%andb_true_iff. apply negb_true_iff in Hc.
  by rewrite tolower_fixed, IH4.
Qed.

Lemma toLower_normal_form_witness :
  all_chars (λ c, negb (is_upper c)) (toLower munoz) = true ∧
  toLower (toLower munoz) = toLower munoz.
Proof.
  destruct (toLower_normal_form (toLower munoz)) as (_ & _ & _ & Hfix).
  destruct (toLower_normal_form munoz) as (_ & _ & Hlow & _).
  split; [exact Hlow|]. exact (Hfix Hlow).
Defined.

(** X2. The prefix search is case-insensitive on both sides. On a
    well-formed store, a live record whose last name is made of letters and
    starts, as stored, with some spelling of the prefix (the same letters in
    any case) is among the results of [prefixByLast]. *)
Theorem prefixByLast_any_case e q q' p r :
  store_inv e → live (heap e) p r →
  toLower q' = toLower q →
  String.prefix q' (Rec.last r) = true →
  all_chars is_letter (Rec.last r) = true →
  ∃ ps c e', prefixByLast e q = Some (ps, c, e') ∧ p ∈ ps.
Proof.
  intros Hinv Hlive Hq Hpre Hletters.
  destruct (prefixByLast_exact e q Hinv) as (ps & c & e' & Hres & _ & Hps).
  exists ps, c, e'. split; [done|]. apply Hps. exists r. split; [done|].
  apply StrFacts.prefix_continues.
  - rewrite <-Hq. by apply prefix_toLower.
  - by apply StrFacts.toLower_letters.
Qed.

Lemma prefixByLast_any_case_witness :
  store_inv sample_store ∧
  live (heap sample_store) 3 (sample_record 1 "Park") ∧
  ∃ ps c e', prefixByLast sample_store "pA" = Some (ps, c, e') ∧ 3 ∈ ps.
Proof.
  split; [apply sample_store_inv|]. split; [by vm_compute|].
  apply (prefixByLast_any_case sample_store "pA" "Pa" 3 (sample_record 1 "Park"));
    [apply sample_store_inv|by vm_compute..].
Defined.

(** ** The heap only grows *)

(** X3. Whatever operations follow, the heap never shrinks, and a slot that
    holds a record keeps holding a record with the same id, last name and
    payload; its [deleted] flag can be set and is never cleared. *)
Theorem heap_append_only e e' :
  store_inv e → rtc step e e' →
  (length (heap e) ≤ length (heap e'))%nat ∧
  ∀ p r, record_at e p = Some r →
         ∃ r', record_at e' p = Some r' ∧ same_fields r r' ∧
               (Rec.deleted r = true → Rec.deleted r' = true).
Proof. intros Hinv Hsteps. by apply steps_heap_keeps. Qed.

Lemma single_to_updated : rtc step single_store updated_store.
Proof.
  apply rtc_once.
  eapply (step_insert single_store (sample_record 7 "Lee")); by vm_compute.
Qed.

Lemma heap_append_only_witness :
  store_inv single_store ∧ rtc step single_store updated_store ∧
  ∃ r', record_at updated_store 0 = Some r' ∧
        same_fields (sample_record 7 "Kim") r'.
Proof.
  split; [apply single_store_inv|]. split; [apply single_to_updated|].
  destruct (heap_append_only single_store updated_store single_store_inv
              single_to_updated) as [_ Hkeep].
  destruct (Hkeep 0 (sample_record 7 "Kim")) as (r' & Hr' & Hsame & _);
    [by vm_compute|].
  by exists r'.
Defined.

(** ** Edge cases of the queries *)

(** X4. With [hi < lo] the range is empty: on every store, well-formed or
    not, [rangeById lo hi] returns the empty list without touching the
    heap. *)
Theorem rangeById_empty_range e lo hi :
  hi < lo →
  ∃ c e', rangeById e lo hi = Some ([], c, e') ∧ same_store e e'.
Proof.
  intros Hlt. unfold rangeById, rangeApply. cbn [resetMetrics root comparisons].
  pose proof (range_node_empty lo hi
    (λ (_ : Z) (rid : Z), collect_live (heap e) rid)
    (root (idIndex e)) (Some []) 0%nat) as Hempty.
  destruct (range_node _ _ _ _ _ _) as [res c]. simpl in Hempty.
  rewrite Hempty by (by apply Z.ltb_lt). simpl. by do 2 eexists.
Qed.

Lemma rangeById_empty_range_witness :
  (3 < 10) ∧ ∃ c e', rangeById stale_store 10 3 = Some ([], c, e').
Proof.
  split; [done|].
  destruct (rangeById_empty_range stale_store 10 3) as (c & e' & Hr & _); [done|].
  by exists c, e'.
Defined.

(** ** Ids are unique among live records *)

(** X5. On a well-formed store every live record is found by its id:
    [findById] returns the pointer to it. No other live record carries the
    same id. *)
Theorem live_record_found e p r :
  store_inv e → live (heap e) p r →
  (∃ c e', findById e (Rec.id r) = Some (Some p, c, e')) ∧
  (∀ p' r', live (heap e) p' r' → Rec.id r' = Rec.id r → p' = p ∧ r' = r).
Proof.
  intros Hinv Hlive. pose proof (inv_id_complete _ _ _ Hinv _ _ Hlive) as Hp. split.
  - rewrite findById_spec, Hp. destruct Hlive as [-> _]. simpl. eauto.
  - intros p' r' Hlive' Hid.
    pose proof (inv_id_complete _ _ _ Hinv _ _ Hlive') as Hp'.
    rewrite Hid, Hp in Hp'. injection Hp' as <-.
    split; [done|]. by eapply live_inj.
Qed.

Lemma live_record_found_witness :
  store_inv sample_store ∧ live (heap sample_store) 2 (sample_record 20 "Kim") ∧
  ∃ c e', findById sample_store 20 = Some (Some 2, c, e').
Proof.
  split; [apply sample_store_inv|]. split; [by vm_compute|].
  destruct (live_record_found sample_store 2 (sample_record 20 "Kim"))
    as [Hfound _]; [apply sample_store_inv|by vm_compute|exact Hfound].
Defined.

(** ** How [insertRecord] composes with the queries *)

Lemma insertRecord_live e r :
  store_inv e → has_room e → Rec.deleted r = false →
  let n := Z.of_nat (length (heap e)) in
  ∃ e', insertRecord e r = Some (n, e') ∧ store_inv e' ∧
        ∀ p r', live (heap e') p r' ↔
                (p = n ∧ r' = r) ∨ (live (heap e) p r' ∧ Rec.id r' ≠ Rec.id r).
Proof.
  intros Hinv Hroom Hdel n.
  destruct (insertRecord_shape e r Hinv Hroom)
    as (e' & He' & _ & Hat & Hlen & _ & Hkeep & Hinv').
  exists e'. split; [done|]. split; [auto|]. fold n in Hat.
  intros p r'. split.
  - intros [Hp Hd]. destruct (decide (p = n)) as [->|Hne].
    { left. split; [done|]. congruence. }
    right. pose proof (heap_at_range _ _ _ Hp) as Hrange.
    destruct (heap_at (heap e) p) as [r0|] eqn:Hp0.
    + rewrite (Hkeep _ _ Hp0) in Hp. injection Hp as <-.
      case_decide as Hold; [done|]. split; [done|].
      intros Hid. apply Hold. rewrite <-Hid. by apply (inv_id_complete _ _ _ Hinv).
    + unfold heap_at in Hp0. case_decide; [|lia].
      apply lookup_ge_None in Hp0. lia.
  - intros [[-> ->]|[[Hp Hd] Hid]]; [done|]. split; [|done].
    rewrite (Hkeep _ _ Hp). case_decide as Hold; [|done].
    destruct (inv_id_sound _ _ _ Hinv _ _ Hold) as (r0 & [Hr0 _] & Hid0). congruence.
Qed.

(** X6. Inserting a record does not disturb the lookup of any other id:
    [findById j], for [j] different from the id inserted, finds the same
    heap position after the insert as before it, or nothing in both cases.
    (The address of that slot may differ: the insert can move the
    vector.) *)
Theorem insertRecord_keeps_other_ids e r j :
  store_inv e → has_room e → j ≠ Rec.id r →
  ∃ v e', insertRecord e r = Some (v, e') ∧
    ∀ res c e1, findById e j = Some (res, c, e1) →
                ∃ c' e1', findById e' j = Some (res, c', e1').
Proof.
  intros Hinv Hroom Hj.
  assert (∀ e' : Engine,
    lookup j (root (idIndex e')) = lookup j (root (idIndex e)) →
    (∀ p r0, heap_at (heap e) p = Some r0 → is_Some (heap_at (heap e') p)) →
    ∀ res c e1, findById e j = Some (res, c, e1) →
                ∃ c' e1', findById e' j = Some (res, c', e1')) as Hframe.
  { intros e' Hlook Hheap res c e1. rewrite !findById_spec, Hlook.
    destruct (lookup j (root (idIndex e))) as [p|]; [|intros [= <- _ _]; eauto].
    destruct (heap_at (heap e) p) as [r0|] eqn:Hp; [|done].
    intros [= <- _ _]. destruct (Hheap _ _ Hp) as [r1 ->]. simpl. eauto. }
  destruct (insertRecord_cases e r Hinv Hroom)
    as [(Hnew & c1 & c2 & He')|(o & ro & Hold & Hlive & Hid & c1 & c2 & He')];
    rewrite He'; do 2 eexists; (split; [done|]); apply Hframe; simpl.
  - by rewrite lookup_insert_ne.
  - intros p r0 Hp. exists r0. apply heap_at_snoc. by left.
  - rewrite lookup_insert_ne by done. rewrite lookup_erase_ne; [done|apply Hinv|done].
  - intros p r0 Hp. pose proof (live_range _ _ _ Hlive) as [Ho _].
    destruct (decide (p = o)) as [->|Hne].
    + eexists. apply heap_at_snoc. left. by rewrite heap_at_alter_eq, Hp.
    + exists r0. apply heap_at_snoc. left. by rewrite heap_at_alter_ne.
Qed.

Lemma insertRecord_keeps_other_ids_witness :
  store_inv sample_store ∧ has_room sample_store ∧
  ∃ v e' c' e1', insertRecord sample_store (sample_record 5 "Lee") = Some (v, e') ∧
                 findById e' 20 = Some (Some 2, c', e1').
Proof.
  split; [apply sample_store_inv|]. split; [by vm_compute|].
  destruct (insertRecord_keeps_other_ids sample_store (sample_record 5 "Lee") 20
              sample_store_inv) as (v & e' & He' & Hframe); [by vm_compute|done|].
  destruct (Hframe (Some 2) 2%nat
              (mkEngine (heap sample_store)
                 (mk (root (idIndex sample_store)) 2)
                 (lastIndex sample_store))) as (c' & e1' & Hf); [by vm_compute|].
  by exists v, e', c', e1'.
Defined.

(** X7. [rangeById] after an insert, on a well-formed store and for a record
    that comes with its flag clear: the result holds the new position when
    the new id lies in the range, and of the positions returned before the
    insert exactly those whose record has another id. *)
Theorem rangeById_after_insert e r lo hi :
  store_inv e → has_room e → Rec.deleted r = false →
  ∃ v e' ps c e1 ps' c' e1',
    insertRecord e r = Some (v, e') ∧
    rangeById e lo hi = Some (ps, c, e1) ∧
    rangeById e' lo hi = Some (ps', c', e1') ∧
    ∀ p, p ∈ ps' ↔
         (p = v ∧ lo ≤ Rec.id r ≤ hi) ∨
         (p ∈ ps ∧ ∃ rp, record_at e p = Some rp ∧ Rec.id rp ≠ Rec.id r).
Proof.
  intros Hinv Hroom Hdel.
  destruct (insertRecord_live e r Hinv Hroom Hdel) as (e' & He' & Hinv' & Hlive).
  do 8 eexists. split; [exact He'|].
  split; [by apply rangeById_spec|]. split; [by apply rangeById_spec|].
  intros p. rewrite !rangeById_elem by done. split.
  - intros (r' & [[-> ->]|[Hl Hid]]%Hlive & Hr); [by left|right].
    split; [by exists r'|]. exists r'. split; [apply Hl|done].
  - intros [[-> Hr]|[(r' & Hl & Hr) (rp & Hrp & Hid)]].
    + exists r. split; [|done]. apply Hlive. by left.
    + exists r'. split; [|done]. apply Hlive. right. split; [done|].
      destruct Hl as [Hl _]. unfold record_at in Hrp. congruence.
Qed.

Lemma rangeById_after_insert_witness :
  store_inv sample_store ∧ has_room sample_store ∧
  ∃ v e' ps' c' e1',
    insertRecord sample_store (sample_record 7 "Oh") = Some (v, e') ∧
    rangeById e' 1 10 = Some (ps', c', e1') ∧ v ∈ ps'.
Proof.
  split; [apply sample_store_inv|]. split; [by vm_compute|].
  destruct (rangeById_after_insert sample_store (sample_record 7 "Oh") 1 10
              sample_store_inv)
    as (v & e' & ps & c & e1 & ps' & c' & e1' & He' & _ & Hr' & Hps);
    [by vm_compute|done|].
  exists v, e', ps', c', e1'. split; [done|]. split; [done|].
  apply Hps. left. split; [done|]. by vm_compute.
Defined.

(** ** Operations that only read *)

Lemma same_store_refl e : same_store e e.
Proof. done. Qed.

Lemma same_store_trans e1 e2 e3 : same_store e1 e2 → same_store e2 e3 → same_store e1 e3.
Proof. unfold same_store. intros (-> & -> & ->) (-> & -> & ->). done. Qed.

Lemma same_store_inv e e' : same_store e e' → store_inv e → store_inv e'.
Proof. unfold same_store, store_inv. by intros (-> & -> & ->). Qed.

Lemma read_step_same e e' : store_inv e → read_step e e' → same_store e e'.
Proof.
  intros Hinv Hstep.
  destruct Hstep as [e i res c e' Hf|e lo hi res c e' Hr|e q res c e' Hq|e i e' Hd].
  - rewrite findById_spec in Hf.
    destruct (lookup i (root (idIndex e))); simplify_option_eq; done.
  - rewrite rangeById_spec in Hr by done. by simplify_eq.
  - rewrite prefixByLast_spec in Hq by done. by simplify_eq.
  - destruct (lookup i (root (idIndex e))) as [o|] eqn:Hi.
    + rewrite (deleteById_present e i o) in Hd; [done|apply Hinv|done].
    + rewrite deleteById_absent in Hd by done. by simplify_eq.
Qed.

Lemma same_store_answers e e' i lo hi q :
  same_store e e' → store_inv e →
  answer (findById e' i) = answer (findById e i) ∧
  answer (rangeById e' lo hi) = answer (rangeById e lo hi) ∧
  answer (prefixByLast e' q) = answer (prefixByLast e q).
Proof.
  intros Hsame Hinv. pose proof (same_store_inv _ _ Hsame Hinv) as Hinv'.
  destruct Hsame as (Hh & Hi & Hl). split_and!.
  - rewrite !findById_spec, Hi, Hh.
    destruct (lookup i (root (idIndex e))) as [p|]; [|done].
    by destruct (heap_at (heap e) p).
  - rewrite !rangeById_spec by done. by rewrite Hi.
  - rewrite !prefixByLast_spec by done. by rewrite Hl.
Qed.

(** X8. The queries, and a [deleteById] that returns false, only read. After
    any number of them on a well-formed store the heap and the entries of
    both indexes are what they were, and every query gives the answer,
    result and [cmpOut], that it would have given before them. *)
Theorem reads_change_nothing e e' :
  store_inv e → rtc read_step e e' →
  same_store e e' ∧
  ∀ i lo hi q,
    answer (findById e' i) = answer (findById e i) ∧
    answer (rangeById e' lo hi) = answer (rangeById e lo hi) ∧
    answer (prefixByLast e' q) = answer (prefixByLast e q).
Proof.
  intros Hinv Hsteps.
  assert (same_store e e') as Hsame.
  { induction Hsteps as [e|e e1 e2 Hstep _ IH]; [done|].
    pose proof (read_step_same _ _ Hinv Hstep) as H1.
    eapply same_store_trans; [exact H1|]. apply IH. by eapply same_store_inv. }
  split; [done|]. intros i lo hi q. by apply same_store_answers.
Qed.

Lemma reads_change_nothing_witness :
  store_inv sample_store ∧
  ∃ e', rtc read_step sample_store e' ∧
        answer (rangeById e' 1 10) = answer (rangeById sample_store 1 10).
Proof.
  split; [apply sample_store_inv|].
  assert (∃ e', rtc read_step sample_store e') as [e' Hsteps].
  { eexists. eapply rtc_l; [eapply (read_find sample_store 20); by vm_compute|].
    apply rtc_once. eapply (read_delete _ 7). by vm_compute. }
  exists e'. split; [done|].
  destruct (reads_change_nothing sample_store e' sample_store_inv Hsteps) as [_ Hans].
  by destruct (Hans 0 1 10 ""%string) as (_ & Hr & _).
Defined.

(** X9. The two ways to look up one id agree. On a well-formed store
    [rangeById i i] returns the one-element list of the pointer that
    [findById i] returns, and the empty list when [findById i] returns the
    null pointer. *)
Theorem point_range_is_find e i :
  store_inv e →
  ∃ res c e1 ps c' e2,
    findById e i = Some (res, c, e1) ∧
    rangeById e i i = Some (ps, c', e2) ∧
    ps = match res with Some p => [p] | None => [] end.
Proof.
  intros Hinv. rewrite findById_spec, rangeById_spec by done.
  set (ps := (filter (in_range i i) (entries (root (idIndex e)))).*2).
  assert (∀ p, p ∈ ps ↔ lookup i (root (idIndex e)) = Some p) as Hps.
  { intros p. unfold ps. rewrite rangeById_elem by done. split.
    - intros (r & Hlive & Hr). assert (Rec.id r = i) as <- by lia.
      by apply (inv_id_complete _ _ _ Hinv).
    - intros (r & Hlive & <-)%(inv_id_sound _ _ _ Hinv). exists r. split; [done|lia]. }
  assert (NoDup ps) as Hnd.
  { destruct (sorted_positions (heap e) (filter (in_range i i) (entries (root (idIndex e)))))
      as [Hnd _]; [|..|done].
    - apply StronglySorted_filter, entries_sorted, Hinv.
    - apply Forall_forall. intros [k p] [_ Hin]%list_elem_of_filter.
      apply elem_of_entries in Hin; [|apply Hinv].
      by apply (inv_id_sound _ _ _ Hinv). }
  destruct (lookup i (root (idIndex e))) as [p0|] eqn:Hp0.
  - destruct (inv_id_sound _ _ _ Hinv _ _ Hp0) as (r0 & [Hr0 _] & _).
    rewrite Hr0. simpl. do 6 eexists. split; [done|]. split; [done|].
    destruct ps as [|p1 ps'].
    { destruct (not_elem_of_nil p0). by apply Hps. }
    assert (p1 = p0) as ->.
    { assert (Some p0 = Some p1) as [= ->]; [|done]. apply Hps. by left. }
    destruct ps' as [|p2 ps'']; [done|].
    assert (p2 = p0) as ->.
    { assert (Some p0 = Some p2) as [= ->]; [|done]. apply Hps. right. by left. }
    apply NoDup_cons in Hnd as [Hnot _]. destruct Hnot. by left.
  - do 6 eexists. split; [done|]. split; [done|].
    destruct ps as [|p1 ps']; [done|].
    assert (None = Some p1) as Hbad; [|done]. apply Hps. by left.
Qed.

Lemma point_range_is_find_witness :
  store_inv sample_store ∧
  ∃ res c e1 ps c' e2,
    findById sample_store 5 = Some (res, c, e1) ∧
    rangeById sample_store 5 5 = Some (ps, c', e2) ∧
    ps = match res with Some p => [p] | None => [] end.
Proof.
  split; [apply sample_store_inv|].
  exact (point_range_is_find sample_store 5 sample_store_inv).
Defined.

(** X10. [prefixByLast] after an insert, on a well-formed store and for a
    record that comes with its flag clear: the result holds the new position
    when the new last name is in the range of the prefix, and of the
    positions returned before the insert exactly those whose record has
    another id. *)
Theorem prefixByLast_after_insert e r q :
  store_inv e → has_room e → Rec.deleted r = false →
  ∃ v e' ps c e1 ps' c' e1',
    insertRecord e r = Some (v, e') ∧
    prefixByLast e q = Some (ps, c, e1) ∧
    prefixByLast e' q = Some (ps', c', e1') ∧
    ∀ p, p ∈ ps' ↔
         (p = v ∧ continues_below (toLower q) (toLower (Rec.last r)) = true) ∨
         (p ∈ ps ∧ ∃ rp, record_at e p = Some rp ∧ Rec.id rp ≠ Rec.id r).
Proof.
  intros Hinv Hroom Hdel.
  destruct (insertRecord_live e r Hinv Hroom Hdel) as (e' & He' & Hinv' & Hlive).
  destruct (prefixByLast_exact e q Hinv) as (ps & c & e1 & Hq & _ & Hps).
  destruct (prefixByLast_exact e' q Hinv') as (ps' & c' & e1' & Hq' & _ & Hps').
  exists (Z.of_nat (length (heap e))), e', ps, c, e1, ps', c', e1'. split; [exact He'|].
  split; [done|]. split; [done|].
  intros p. rewrite Hps', Hps. split.
  - intros (r' & [[-> ->]|[Hl Hid]]%Hlive & Hr); [by left|right].
    split; [by exists r'|]. exists r'. split; [apply Hl|done].
  - intros [[-> Hr]|[(r' & Hl & Hr) (rp & Hrp & Hid)]].
    + exists r. split; [|done]. apply Hlive. by left.
    + exists r'. split; [|done]. apply Hlive. right. split; [done|].
      destruct Hl as [Hl _]. unfold record_at in Hrp. congruence.
Qed.

Lemma prefixByLast_after_insert_witness :
  store_inv sample_store ∧ has_room sample_store ∧
  ∃ v e' ps' c' e1',
    insertRecord sample_store (sample_record 7 "KING") = Some (v, e') ∧
    prefixByLast e' "ki" = Some (ps', c', e1') ∧ v ∈ ps'.
Proof.
  split; [apply sample_store_inv|]. split; [by vm_compute|].
  destruct (prefixByLast_after_insert sample_store (sample_record 7 "KING") "ki"
              sample_store_inv)
    as (v & e' & ps & c & e1 & ps' & c' & e1' & He' & _ & Hr' & Hps);
    [by vm_compute|done|].
  exists v, e', ps', c', e1'. split; [done|]. split; [done|].
  apply Hps. left. split; [done|]. by vm_compute.
Defined.

(** ** Positions are handed out in ascending order *)

(** X11. A heap position is never handed out twice: the position returned by
    an [insertRecord] is smaller than the position returned by any later
    [insertRecord], whatever operations lie between the two. *)
Theorem insert_positions_increase e r1 p1 e1 e2 r2 p2 e3 :
  store_inv e → has_room e → Rec.deleted r1 = false →
  insertRecord e r1 = Some (p1, e1) →
  rtc step e1 e2 → has_room e2 →
  insertRecord e2 r2 = Some (p2, e3) →
  p1 < p2.
Proof.
  intros Hinv Hroom Hdel H1 Hsteps Hroom2 H2.
  destruct (insertRecord_shape e r1 Hinv Hroom)
    as (e1' & He1 & _ & _ & Hlen1 & _ & _ & Hinv1).
  rewrite He1 in H1. injection H1 as <- <-. specialize (Hinv1 Hdel).
  destruct (steps_heap_keeps _ _ Hsteps Hinv1) as [Hlen2 _].
  destruct (insertRecord_shape e2 r2 (steps_inv _ _ Hsteps Hinv1) Hroom2)
    as (e3' & He3 & _).
  rewrite He3 in H2. injection H2 as <- <-. lia.
Qed.

Lemma insert_positions_increase_witness :
  store_inv single_store ∧ has_room single_store ∧ has_room updated_store ∧
  ∃ p2 e3, insertRecord updated_store (sample_record 9 "Ng") = Some (p2, e3) ∧ 1 < p2.
Proof.
  split; [apply single_store_inv|]. split; [by vm_compute|]. split; [by vm_compute|].
  exists 2. eexists. split; [by vm_compute|].
  eapply (insert_positions_increase single_store (sample_record 7 "Lee") 1
            updated_store updated_store (sample_record 9 "Ng") 2);
    [apply single_store_inv|by vm_compute|done|by vm_compute|apply rtc_refl
    |by vm_compute|by vm_compute].
Defined.

(** ** The order of the results of [prefixByLast] *)

Lemma buckets_sorted_add tl k n :
  buckets_sorted tl →
  (∀ k' b p, lookup k' tl = Some b → p ∈ b → p < n) →
  buckets_sorted (add_to_bucket k n tl).
Proof.
  intros Hsorted Hbound k' b. rewrite lookup_add_to_bucket.
  case_decide as Hk; [|by apply Hsorted]. intros [= <-].
  destruct (lookup k tl) as [b0|] eqn:Hb0; simpl.
  - apply StronglySorted_app_2; [|by eapply Hsorted|repeat constructor].
    intros x1 x2 Hx1 ->%list_elem_of_singleton. by eapply Hbound.
  - repeat constructor.
Qed.

Lemma buckets_sorted_remove tl o k :
  buckets_sorted tl → buckets_sorted (update (remove_value o) k tl).
Proof.
  intros Hsorted k' b. destruct (decide (k' = k)) as [->|Hk].
  - rewrite lookup_update_eq. destruct (lookup k tl) as [b0|] eqn:Hb0; [|done].
    intros [= <-]. apply StronglySorted_filter. by eapply Hsorted.
  - rewrite lookup_update_ne by done. apply Hsorted.
Qed.

Lemma step_buckets_sorted e e' :
  step e e' → store_inv e →
  buckets_sorted (root (lastIndex e)) → buckets_sorted (root (lastIndex e')).
Proof.
  intros Hstep Hinv Hsorted.
  assert (∀ k b p, lookup k (root (lastIndex e)) = Some b → p ∈ b →
                   p < Z.of_nat (length (heap e))) as Hbound.
  { intros k b p Hb Hp.
    destruct (inv_last_sound _ _ _ Hinv _ _ _ Hb Hp) as (r & Hlive%live_range & _). lia. }
  destruct Hstep as
    [e r0 v e' Hdel0 Hroom Hins|e i b e' Hd|e i res c e' Hf|e lo hi res c e' Hr|e q res c e' Hq].
  - destruct (insertRecord_cases e r0 Hinv Hroom)
      as [(Hnew & c1 & c2 & He')|(o & ro & Hold & Hlive & Hid & c1 & c2 & He')];
      rewrite He' in Hins; injection Hins as <- <-; simpl.
    + by apply buckets_sorted_add.
    + apply buckets_sorted_add; [by apply buckets_sorted_remove|].
      intros k b p Hb Hp. destruct (decide (k = toLower (Rec.last ro))) as [->|Hk].
      * rewrite lookup_update_eq in Hb.
        destruct (lookup (toLower (Rec.last ro)) (root (lastIndex e))) as [b0|] eqn:Hb0;
          simplify_eq/=.
        apply list_elem_of_filter in Hp as [_ Hp]. by eapply Hbound.
      * rewrite lookup_update_ne in Hb by done. by eapply Hbound.
  - destruct (lookup i (root (idIndex e))) as [o|] eqn:Hi.
    + rewrite (deleteById_present e i o) in Hd; [done|apply Hinv|done].
    + rewrite deleteById_absent in Hd by done. by simplify_eq.
  - rewrite findById_spec in Hf.
    destruct (lookup i (root (idIndex e))); simplify_option_eq; done.
  - rewrite rangeById_spec in Hr by done. by simplify_eq.
  - rewrite prefixByLast_spec in Hq by done. by simplify_eq.
Qed.

Lemma reachable_buckets_sorted e :
  reachable e → buckets_sorted (root (lastIndex e)).
Proof.
  intros Hreach.
  assert (∀ e0 e1, rtc step e0 e1 → store_inv e0 →
            buckets_sorted (root (lastIndex e0)) →
            buckets_sorted (root (lastIndex e1))) as Hsteps.
  { induction 1 as [|e0 e1 e2 Hstep _ IH]; [done|]. intros Hinv Hsorted.
    apply IH; [by eapply step_inv|by eapply step_buckets_sorted]. }
  apply (Hsteps newEngine e Hreach newEngine_inv). by intros k b.
Qed.

Lemma bucket_pairs_cons k b L :
  bucket_pairs ((k, b) :: L) = ((λ p, (k, p)) <$> b) ++ bucket_pairs L.
Proof. done. Qed.

Lemma elem_of_bucket_pairs L k p :
  (k, p) ∈ bucket_pairs L ↔ ∃ b, (k, b) ∈ L ∧ p ∈ b.
Proof.
  induction L as [|[k' b'] L IH].
  - split; [by intros ?%elem_of_nil|by intros (? & ?%elem_of_nil & _)].
  - rewrite bucket_pairs_cons, elem_of_app, IH, list_elem_of_fmap. split.
    + intros [(p' & [= -> ->] & Hp)|(b & Hb & Hp)].
      * exists b'. split; [by left|done].
      * exists b. split; [by right|done].
    + intros (b & [[= -> ->]|Hb]%elem_of_cons & Hp); [left; eauto|right; eauto].
Qed.

Lemma bucket_pairs_snd L : (bucket_pairs L).*2 = concat L.*2.
Proof.
  induction L as [|[k b] L IH]; [done|].
  rewrite bucket_pairs_cons, fmap_app, IH. simpl. f_equal.
  rewrite <-list_fmap_compose. apply list_fmap_id.
Qed.

Lemma bucket_pairs_sorted L :
  StronglySorted (λ a b, key_lt a.1 b.1 = true) L →
  Forall (λ kb, StronglySorted Z.lt kb.2) L →
  StronglySorted name_then_position (bucket_pairs L).
Proof.
  induction 1 as [|[k b] L HL IH Hk]; intros Hall; [constructor|].
  apply Forall_cons in Hall as [Hb Hall]. rewrite bucket_pairs_cons.
  apply StronglySorted_app_2; [| |by apply IH].
  - intros x1 [k2 p2] (p1 & -> & Hp1)%list_elem_of_fmap
      (b2 & Hin & Hp2)%elem_of_bucket_pairs.
    left. simpl. by apply (proj1 (Forall_forall _ _) Hk (k2, b2)).
  - eapply StronglySorted_fmap; [|exact Hb]. intros x y Hxy. by right.
Qed.

(** X12. The results of [prefixByLast] come in a fixed order. On every store
    reached from the empty engine the returned records are ordered by
    lower-cased last name, and records with the same lower-cased last name
    by heap position, that is in the order of their insertion. *)
Theorem prefixByLast_order e q :
  reachable e →
  ∃ ps c e', prefixByLast e q = Some (ps, c, e') ∧
    ∃ names,
      Forall2 (λ p k, ∃ r, record_at e p = Some r ∧ toLower (Rec.last r) = k)
              ps names ∧
      StronglySorted name_then_position (zip names ps).
Proof.
  intros Hreach. pose proof (reachable_inv _ Hreach) as Hinv.
  pose proof (reachable_buckets_sorted _ Hreach) as Hsorted.
  rewrite prefixByLast_spec by done.
  set (L := filter _ (entries (root (lastIndex e)))).
  assert (∀ k b, (k, b) ∈ L → lookup k (root (lastIndex e)) = Some b) as HL.
  { intros k b [_ Hin]%list_elem_of_filter. by apply elem_of_entries; [apply Hinv|]. }
  do 3 eexists. split; [done|]. exists (bucket_pairs L).*1.
  rewrite <-bucket_pairs_snd, zip_fst_snd. split.
  - apply Forall2_fmap, Forall_Forall2_diag, Forall_forall.
    intros [k p] (b & Hb & Hp)%elem_of_bucket_pairs. simpl.
    destruct (inv_last_sound _ _ _ Hinv _ _ _ (HL _ _ Hb) Hp) as (r & [Hr _] & Hk).
    by exists r.
  - apply bucket_pairs_sorted.
    + apply StronglySorted_filter, entries_sorted, Hinv.
    + apply Forall_forall. intros [k b] Hb. simpl. eapply Hsorted. by apply HL.
Qed.

Lemma sample_store_reachable : reachable sample_store.
Proof.
  sample_reachable [sample_record 10 "Lee"; sample_record 5 "Kim";
                    sample_record 20 "Kim"; sample_record 1 "Park"].
Qed.

Lemma prefixByLast_order_witness :
  reachable sample_store ∧
  ∃ ps c e', prefixByLast sample_store "" = Some (ps, c, e') ∧ length ps = 4%nat.
Proof.
  split; [apply sample_store_reachable|].
  destruct (prefixByLast_order sample_store "" sample_store_reachable)
    as (ps & c & e' & Hq & _).
  exists ps, c, e'. split; [done|].
  assert (prefixByLast sample_store "" = Some (ps, c, e')) as Hq' by done.
  vm_compute in Hq'. by injection Hq' as <- _ _.
Defined.

End further.
